(** * Forward chaining over definite clauses

    A shallow embedding of [src/clause.py], [src/knowledge_base.py] and
    [src/forward_chaining.py], and the properties of the parser, of the
    knowledge base and of the inference loop that are proved about it.

    Conventions of the embedding.
    - A symbol is any hashable Python value compared with [==]; the engine
      is generic in the type [Symbol] of symbols.  The parser produces
      symbols of type [option pystr]: [None] is Python's [None] and
      [Some s] the string [s].
    - A Python [str] is the list of its code points ([pystr]).
    - [Clause] defines neither [__eq__] nor [__hash__]: a clause used as a
      dictionary key is keyed by the identity of the object.  A value of
      type [Clause] is a reference to a clause object: [oid] is the identity
      of the object and the other fields are its attributes.  Two references
      to one object have the same [oid].
    - A Python [set] is the list of its elements in the order the set
      iterates them; the order is not specified by Python and is left to a
      [SetOrder] instance.
    - The [while] loop is run with fuel: [None] means that the loop has not
      finished within the given number of iterations. *)

From Stdlib Require Import ZArith NArith Ascii String.
From stdpp Require Import gmap strings list fin_maps.

(** * Part I: the program *)

(** ** Clauses ([src/clause.py]) *)

Section Clause.
Context {Symbol : Type}.

Record Clause := mkClause {
  oid : positive;
  premise_literals : list Symbol;
  conclusion_literal : Symbol;
  known_count : Z
}.

(** [Clause.__init__]: a new object, at the identity the allocator chose. *)
Definition new_clause (addr : positive) (premise : list Symbol)
    (conclusion : Symbol) : Clause :=
  {| oid := addr;
     premise_literals := premise;
     conclusion_literal := conclusion;
     known_count := 0%Z |}.

(** [Clause.is_fact] *)
Definition is_fact (c : Clause) : bool :=
  Nat.eqb (length (premise_literals c)) 0.

(** [Clause.increment_known_count]: the updated object and the returned
    flag. *)
Definition increment_known_count (c : Clause) : Clause * bool :=
  let c' := {| oid := oid c;
               premise_literals := premise_literals c;
               conclusion_literal := conclusion_literal c;
               known_count := (known_count c + 1)%Z |} in
  (c', Z.geb (known_count c') (Z.of_nat (length (premise_literals c')))).

End Clause.

Global Arguments Clause : clear implicits.

(** ** Python sets *)

(** The elements of a set in iteration order.  [set.add] leaves the set as
    it is when the element is present and otherwise yields a set holding one
    more element, in an order that depends on the hashes. *)
Class SetOrder (A : Type) := {
  set_add : A → list A → list A;
  set_add_present : ∀ x s, x ∈ s → set_add x s = s;
  set_add_absent : ∀ x s, x ∉ s → set_add x s ≡ₚ x :: s
}.

(** One possible order: a new element goes last. *)
Definition add_last {A} `{EqDecision A} (x : A) (s : list A) : list A :=
  if decide (x ∈ s) then s else s ++ [x].

Program Definition last_order {A} `{EqDecision A} : SetOrder A :=
  {| set_add := add_last |}.
Next Obligation.
  intros A ? x s Hin. unfold add_last. by rewrite decide_True.
Qed.
Next Obligation.
  intros A ? x s Hout. unfold add_last. rewrite decide_False by done.
  by rewrite Permutation_app_comm.
Qed.

(** ** The knowledge base ([src/knowledge_base.py]) *)

Section KnowledgeBase.
Context `{Countable Symbol}.

Record KnowledgeBase := mkKB {
  clauses : list (Clause Symbol);
  clauses_by_premise : gmap Symbol (list (Clause Symbol));
  facts : list Symbol
}.

(** [KnowledgeBase.__init__] *)
Definition empty_kb : KnowledgeBase :=
  {| clauses := []; clauses_by_premise := ∅; facts := [] |}.

(** [self.clauses_by_premise[literal].append(clause)] on a
    [defaultdict(list)]: a missing bucket is created empty first. *)
Definition bucket_append (index : gmap Symbol (list (Clause Symbol)))
    (literal : Symbol) (clause : Clause Symbol) :=
  <[literal := default [] (index !! literal) ++ [clause]]> index.

(** [KnowledgeBase.add_clause] *)
Definition add_clause {order : SetOrder Symbol} (kb : KnowledgeBase)
    (clause : Clause Symbol) : KnowledgeBase :=
  {| clauses := clauses kb ++ [clause];
     facts := if is_fact clause
              then set_add (conclusion_literal clause) (facts kb)
              else facts kb;
     clauses_by_premise :=
       foldl (λ index literal, bucket_append index literal clause)
             (clauses_by_premise kb) (premise_literals clause) |}.

(** A knowledge base after a sequence of insertions into a new one. *)
Definition build {order : SetOrder Symbol} (cs : list (Clause Symbol))
    : KnowledgeBase :=
  foldl add_clause empty_kb cs.

(** [KnowledgeBase.get_facts]: the set itself.  A reader returns the
    knowledge base along with its result. *)
Definition get_facts (kb : KnowledgeBase) : list Symbol * KnowledgeBase :=
  (facts kb, kb).

(** [KnowledgeBase.get_clauses_with_premise]: [dict.get] with a default
    creates no bucket. *)
Definition get_clauses_with_premise (kb : KnowledgeBase) (symbol : Symbol)
    : list (Clause Symbol) * KnowledgeBase :=
  (default [] (clauses_by_premise kb !! symbol), kb).

(** [KnowledgeBase.get_all_symbols], as the list of the [add] calls. *)
Definition get_all_symbols (kb : KnowledgeBase) : list Symbol :=
  c ← clauses kb; conclusion_literal c :: premise_literals c.

End KnowledgeBase.

Global Arguments KnowledgeBase Symbol {_ _}.

(** ** The inference engine ([src/forward_chaining.py]) *)

Section ForwardChaining.
Context `{Countable Symbol}.

(** What a call does: it returns [(is_entailed, inference_path)], or
    [count[clause]] raises [KeyError]. *)
Inductive Outcome :=
| Returned (is_entailed : bool) (path : list Symbol)
| KeyError.

(** The local variables of [forward_chaining]. *)
Record Locals := mkLocals {
  count : gmap positive Z;
  inferred : gmap Symbol bool;
  agenda : list Symbol;
  inference_path : list Symbol
}.

(** [{clause: len(clause.premise_literals) for clause in kb.clauses}] *)
Definition init_count (cs : list (Clause Symbol)) : gmap positive Z :=
  foldl (λ m c, <[oid c := Z.of_nat (length (premise_literals c))]> m) ∅ cs.

(** [inferred[p]] on a [defaultdict(bool)]: a missing key is inserted
    with [False]. *)
Definition inferred_get (inferred : gmap Symbol bool) (p : Symbol)
    : bool * gmap Symbol bool :=
  match inferred !! p with
  | Some b => (b, inferred)
  | None => (false, <[p := false]> inferred)
  end.

(** The [for clause in ...] loop: [None] when [count[clause]] raises. *)
Fixpoint for_clauses (cs : list (Clause Symbol)) (count : gmap positive Z)
    (agenda : list Symbol) : option (gmap positive Z * list Symbol) :=
  match cs with
  | [] => Some (count, agenda)
  | c :: cs' =>
      match count !! oid c with
      | None => None
      | Some n =>
          let count' := <[oid c := (n - 1)%Z]> count in
          let agenda' :=
            if Z.eqb (n - 1) 0 then agenda ++ [conclusion_literal c]
            else agenda in
          for_clauses cs' count' agenda'
      end
  end.

(** One iteration of [while agenda:], the test included. *)
Definition loop_body (query : Symbol) (kb : KnowledgeBase Symbol)
    (st : Locals) : KnowledgeBase Symbol * (Locals + Outcome) :=
  match agenda st with
  | [] => (kb, inr (Returned false (inference_path st)))
  | p :: agenda1 =>
      if decide (p = query) then
        (kb, inr (Returned true (inference_path st ++ [p])))
      else
        let '(known, inferred1) := inferred_get (inferred st) p in
        if known then
          (kb, inl {| count := count st; inferred := inferred1;
                      agenda := agenda1;
                      inference_path := inference_path st |})
        else
          let inferred2 := <[p := true]> inferred1 in
          let path2 := inference_path st ++ [p] in
          let '(bucket, kb1) := get_clauses_with_premise kb p in
          match for_clauses bucket (count st) agenda1 with
          | None => (kb1, inr KeyError)
          | Some (count2, agenda2) =>
              (kb1, inl {| count := count2; inferred := inferred2;
                           agenda := agenda2; inference_path := path2 |})
          end
  end.

Fixpoint while_agenda (fuel : nat) (query : Symbol)
    (kb : KnowledgeBase Symbol) (st : Locals)
    : option (KnowledgeBase Symbol * Outcome) :=
  match fuel with
  | O => None
  | S fuel' =>
      match loop_body query kb st with
      | (kb', inl st') => while_agenda fuel' query kb' st'
      | (kb', inr out) => Some (kb', out)
      end
  end.

(** The state at the loop head, after the four initialisations. *)
Definition init_locals (kb : KnowledgeBase Symbol)
    : Locals * KnowledgeBase Symbol :=
  let count0 := init_count (clauses kb) in
  let '(fs, kb1) := get_facts kb in
  ({| count := count0; inferred := ∅; agenda := fs;
      inference_path := [] |}, kb1).

Definition forward_chaining_fuel (fuel : nat) (kb : KnowledgeBase Symbol)
    (query : Symbol) : option (KnowledgeBase Symbol * Outcome) :=
  let '(st, kb1) := init_locals kb in
  while_agenda fuel query kb1 st.

(** Iterations that always suffice (lemma [loop_fuel_enough]). *)
Definition enough_fuel (kb : KnowledgeBase Symbol) : nat :=
  S (length (facts kb) + length (clauses kb)).

(** [forward_chaining(kb, query)]: the knowledge base after the call and
    the outcome of the call. *)
Definition forward_chaining (kb : KnowledgeBase Symbol) (query : Symbol)
    : option (KnowledgeBase Symbol * Outcome) :=
  forward_chaining_fuel (enough_fuel kb) kb query.

(** Two calls in succession, the second on what the first left. *)
Definition forward_chaining_twice (kb : KnowledgeBase Symbol)
    (query : Symbol) : option (KnowledgeBase Symbol * Outcome * Outcome) :=
  match forward_chaining kb query with
  | Some (kb1, out1) =>
      match forward_chaining kb1 query with
      | Some (kb2, out2) => Some (kb2, out1, out2)
      | None => None
      end
  | None => None
  end.

End ForwardChaining.

Global Arguments Outcome : clear implicits.
Global Arguments Locals Symbol {_ _}.

(** ** Python strings *)

(** A [str] is the list of its code points. *)
Abbreviation pystr := (list N).

(** A literal of the source that holds ASCII characters only. *)
Definition lit (s : string) : pystr :=
  (λ a, N_of_ascii a) <$> list_ascii_of_string s.

(** [sep.join(parts)] *)
Fixpoint join (sep : pystr) (parts : list pystr) : pystr :=
  match parts with
  | [] => []
  | [part] => part
  | part :: rest => part ++ sep ++ join sep rest
  end.

(** [str(x)] for a symbol of the parser, a string or [None]. *)
Definition str_of_value (x : option pystr) : pystr :=
  match x with
  | Some s => s
  | None => lit "None"
  end.

(** ** The traced engine ([forward_chaining_with_trace]) *)

Section Trace.
Context `{Countable Symbol}.

(** [str(p)] for a symbol [p]. *)
Variable str_of : Symbol → pystr.

(** [Clause.__str__]; the code points 172, 8743 and 8594 are the signs of
    negation, conjunction and implication. *)
Definition clause_str (c : Clause Symbol) : pystr :=
  match premise_literals c with
  | [] => str_of (conclusion_literal c)
  | _ =>
      let premise_str :=
        join [32; 8743; 32]%N
             ((λ l, 172%N :: str_of l) <$> premise_literals c) in
      lit "(" ++ premise_str ++ lit ") " ++ [8594%N] ++ lit " "
        ++ str_of (conclusion_literal c)
  end.

(** The dictionaries appended to [trace], one constructor for each set of
    keys; the fields are the values, in the order of the source. *)
Inductive TraceRecord :=
| TraceInitialize (step : Z) (action : pystr) (agenda : list Symbol)
    (inferred : gmap Symbol bool) (count : gmap pystr Z)
| TracePop (step : Z) (action : pystr) (agenda : list Symbol)
    (current : Symbol)
| TraceFound (step : Z) (action result : pystr)
| TraceInfer (step : Z) (action : pystr) (inferred : gmap Symbol bool)
| TraceUpdate (step : Z) (action clause : pystr) (old_count new_count : Z)
| TraceAdd (step : Z) (action reason : pystr) (agenda : list Symbol)
| TraceEmpty (step : Z) (action result : pystr).

Inductive TracedOutcome :=
| ReturnedTrace (is_entailed : bool) (path : list Symbol)
    (trace : list TraceRecord)
| KeyErrorTrace.

(** The local variables of [forward_chaining_with_trace]. *)
Record TracedLocals := mkTracedLocals {
  locals : Locals Symbol;
  trace : list TraceRecord;
  step : Z
}.

(** [{k: v for k, v in inferred.items() if v}] *)
Definition inferred_true (inferred : gmap Symbol bool) : gmap Symbol bool :=
  filter (λ kv, kv.2 = true) inferred.

(** The keys of [count] in the order of [count.items()]: every clause
    object once, where it first stands in [kb.clauses]. *)
Fixpoint count_keys (seen : gset positive) (cs : list (Clause Symbol))
    : list (Clause Symbol) :=
  match cs with
  | [] => []
  | c :: cs' =>
      if decide (oid c ∈ seen) then count_keys seen cs'
      else c :: count_keys ({[oid c]} ∪ seen) cs'
  end.

(** [{str(k): v for k, v in count.items()}] *)
Definition count_snapshot (cs : list (Clause Symbol))
    (count : gmap positive Z) : gmap pystr Z :=
  foldl (λ m k, <[clause_str k := default 0%Z (count !! oid k)]> m) ∅
        (count_keys ∅ cs).

(** The [for clause in affected_clauses] loop. *)
Fixpoint for_clauses_trace (cs : list (Clause Symbol))
    (count : gmap positive Z) (agenda : list Symbol)
    (trace : list TraceRecord) (step : Z)
    : option (gmap positive Z * list Symbol * list TraceRecord * Z) :=
  match cs with
  | [] => Some (count, agenda, trace, step)
  | c :: cs' =>
      match count !! oid c with
      | None => None
      | Some old_count =>
          let count' := <[oid c := (old_count - 1)%Z]> count in
          let new_count := (old_count - 1)%Z in
          let trace1 :=
            trace ++ [TraceUpdate step
                        (lit "Update count for " ++ clause_str c)
                        (clause_str c) old_count new_count] in
          let step1 := (step + 1)%Z in
          if Z.eqb new_count 0 then
            let conclusion := conclusion_literal c in
            let agenda' := agenda ++ [conclusion] in
            let trace2 :=
              trace1 ++ [TraceAdd step1
                           (lit "Add to agenda: " ++ str_of conclusion)
                           (lit "All premises of " ++ clause_str c
                              ++ lit " are known")
                           agenda'] in
            for_clauses_trace cs' count' agenda' trace2 (step1 + 1)%Z
          else for_clauses_trace cs' count' agenda trace1 step1
      end
  end.

(** One iteration of [while agenda:] in the traced engine. *)
Definition loop_body_trace (query : Symbol) (kb : KnowledgeBase Symbol)
    (ts : TracedLocals)
    : KnowledgeBase Symbol * (TracedLocals + TracedOutcome) :=
  let st := locals ts in
  match agenda st with
  | [] =>
      let trace1 :=
        trace ts ++ [TraceEmpty (step ts) (lit "Agenda empty")
                       (lit "NOT ENTAILED")] in
      (kb, inr (ReturnedTrace false (inference_path st) trace1))
  | p :: agenda1 =>
      let trace1 :=
        trace ts ++ [TracePop (step ts) (lit "Pop from agenda: " ++ str_of p)
                       agenda1 p] in
      let step1 := (step ts + 1)%Z in
      if decide (p = query) then
        let trace2 :=
          trace1 ++ [TraceFound step1 (lit "Found query: " ++ str_of p)
                       (lit "ENTAILED")] in
        (kb, inr (ReturnedTrace true (inference_path st ++ [p]) trace2))
      else
        let '(known, inferred1) := inferred_get (inferred st) p in
        if known then
          (kb, inl {| locals := {| count := count st; inferred := inferred1;
                                   agenda := agenda1;
                                   inference_path := inference_path st |};
                      trace := trace1; step := step1 |})
        else
          let inferred2 := <[p := true]> inferred1 in
          let path2 := inference_path st ++ [p] in
          let trace2 :=
            trace1 ++ [TraceInfer step1 (lit "Infer: " ++ str_of p)
                         (inferred_true inferred2)] in
          let step2 := (step1 + 1)%Z in
          let '(affected_clauses, kb1) := get_clauses_with_premise kb p in
          match for_clauses_trace affected_clauses (count st) agenda1
                  trace2 step2 with
          | None => (kb1, inr KeyErrorTrace)
          | Some (count2, agenda2, trace3, step3) =>
              (kb1, inl {| locals := {| count := count2;
                                        inferred := inferred2;
                                        agenda := agenda2;
                                        inference_path := path2 |};
                           trace := trace3; step := step3 |})
          end
  end.

Fixpoint while_agenda_trace (fuel : nat) (query : Symbol)
    (kb : KnowledgeBase Symbol) (ts : TracedLocals)
    : option (KnowledgeBase Symbol * TracedOutcome) :=
  match fuel with
  | O => None
  | S fuel' =>
      match loop_body_trace query kb ts with
      | (kb', inl ts') => while_agenda_trace fuel' query kb' ts'
      | (kb', inr out) => Some (kb', out)
      end
  end.

(** The state at the loop head: the initialisations, the first record of
    the trace and [step = 1]. *)
Definition init_traced_locals (kb : KnowledgeBase Symbol)
    : TracedLocals * KnowledgeBase Symbol :=
  let count0 := init_count (clauses kb) in
  let '(fs, kb1) := get_facts kb in
  let inferred0 : gmap Symbol bool := ∅ in
  let trace0 :=
    [TraceInitialize 0 (lit "Initialize") fs (inferred_true inferred0)
       (count_snapshot (clauses kb1) count0)] in
  ({| locals := {| count := count0; inferred := inferred0; agenda := fs;
                   inference_path := [] |};
      trace := trace0; step := 1 |}, kb1).

Definition forward_chaining_with_trace_fuel (fuel : nat)
    (kb : KnowledgeBase Symbol) (query : Symbol)
    : option (KnowledgeBase Symbol * TracedOutcome) :=
  let '(ts, kb1) := init_traced_locals kb in
  while_agenda_trace fuel query kb1 ts.

(** [forward_chaining_with_trace(kb, query)] *)
Definition forward_chaining_with_trace (kb : KnowledgeBase Symbol)
    (query : Symbol) : option (KnowledgeBase Symbol * TracedOutcome) :=
  forward_chaining_with_trace_fuel (enough_fuel kb) kb query.

(** The first two components of the returned triple. *)
Definition verdict_and_path (out : TracedOutcome) : Outcome Symbol :=
  match out with
  | ReturnedTrace is_entailed path _ => Returned is_entailed path
  | KeyErrorTrace => KeyError
  end.

End Trace.

Global Arguments TraceRecord Symbol {_ _}.
Global Arguments TracedOutcome Symbol {_ _}.
Global Arguments TracedLocals Symbol {_ _}.

(** ** The parser ([Clause.from_string]) *)

Section Parser.

(** [str.isspace] on one code point.  The table is the interpreter's, not
    the repository's: the parser is stated for any such table. *)
Variable isspace : N → bool.

(** [s.lstrip()] *)
Fixpoint lstrip (s : pystr) : pystr :=
  match s with
  | [] => []
  | ch :: s' => if isspace ch then lstrip s' else s
  end.

(** [s.strip()] *)
Definition strip (s : pystr) : pystr :=
  reverse (lstrip (reverse (lstrip s))).

(** [s.split()] with [word] the characters of the word being read: runs
    of white space separate the words and no word is empty. *)
Fixpoint split_from (word : pystr) (s : pystr) : list pystr :=
  match s with
  | [] => match word with [] => [] | _ => [word] end
  | ch :: s' =>
      if isspace ch then
        match word with
        | [] => split_from [] s'
        | _ => word :: split_from [] s'
        end
      else split_from (word ++ [ch]) s'
  end.

Definition str_split (s : pystr) : list pystr := split_from [] s.

(** [literal.startswith('-')]; 45 is the code point of the minus sign. *)
Definition startswith_minus (literal : pystr) : bool :=
  match literal with
  | ch :: _ => N.eqb ch 45
  | [] => false
  end.

(** What [Clause.from_string] does: it returns a clause or raises
    [ValueError]. *)
Inductive ParseOutcome :=
| Parsed (c : Clause (option pystr))
| ValueError.

(** The [for literal in literals] loop, from the premises collected so
    far: the final [premise_literals] and [conclusion_literal]. *)
Fixpoint scan_literals (literals : list pystr)
    (premise : list (option pystr))
    : list (option pystr) * option pystr :=
  match literals with
  | [] => (premise, None)
  | literal :: rest =>
      if startswith_minus literal
      then scan_literals rest (premise ++ [Some (drop 1 literal)])
      else (premise, Some literal)
  end.

(** [Clause.from_string(clause_str)]; [addr] is the identity of the object
    that [cls(...)] creates. *)
Definition from_string (addr : positive) (clause_str : pystr)
    : ParseOutcome :=
  let literals := str_split (strip clause_str) in
  let '(premise, conclusion) := scan_literals literals [] in
  match conclusion, literals with
  | None, first :: _ =>
      if Nat.eqb (length literals) 1 && negb (startswith_minus first)
      then Parsed (new_clause addr [] (Some first))
      else ValueError
  | _, _ => Parsed (new_clause addr premise conclusion)
  end.

End Parser.

(** ** Loading ([KnowledgeBase.load_from_file]) *)

Section Loader.
Variable isspace : N → bool.
Context {order : SetOrder (option pystr)}.

(** What [load_from_file] does once the file is open: it returns, or a
    line raises [ValueError]. *)
Inductive LoadOutcome :=
| Loaded
| LoadValueError.

(** The loop over the lines of the file.  [addr] is the identity of the
    next object that is created; the objects created before stay alive in
    the clause list, so the next one is at another identity. *)
Fixpoint load_lines (lines : list pystr) (addr : positive)
    (kb : KnowledgeBase (option pystr))
    : KnowledgeBase (option pystr) * LoadOutcome :=
  match lines with
  | [] => (kb, Loaded)
  | line :: rest =>
      match strip isspace line with
      | [] => load_lines rest addr kb
      | line' =>
          match from_string isspace addr line' with
          | Parsed clause =>
              load_lines rest (Pos.succ addr) (add_clause kb clause)
          | ValueError => (kb, LoadValueError)
          end
      end
  end.

(** [KnowledgeBase().load_from_file(filename)] on a file with these
    lines. *)
Definition load_from_file (lines : list pystr)
    : KnowledgeBase (option pystr) * LoadOutcome :=
  load_lines lines 1 empty_kb.

End Loader.

(** The white space of [str.isspace], as a table for the examples. *)
Definition py_isspace (ch : N) : bool :=
  bool_decide (ch ∈ [9; 10; 11; 12; 13; 28; 29; 30; 31; 32; 133; 160; 5760;
                     8192; 8193; 8194; 8195; 8196; 8197; 8198; 8199; 8200;
                     8201; 8202; 8232; 8233; 8239; 8287; 12288]%N).

(** ** What the engine is to compute *)

Section Closure.
Context `{Countable Symbol}.

(** The closure of the facts under clause firing: the conclusion of a
    clause is derivable once all its premises are; a clause without
    premises is a fact. *)
Inductive derivable (cs : list (Clause Symbol)) : Symbol → Prop :=
| derivable_fire c :
    c ∈ cs →
    (∀ p, p ∈ premise_literals c → derivable cs p) →
    derivable cs (conclusion_literal c).

(** How often [p] stands among the premises of [c]. *)
Definition occurrences (p : Symbol) (c : Clause Symbol) : nat :=
  length (filter (λ x, x = p) (premise_literals c)).

(** The bucket of [p] after the insertions [cs]: every clause once for
    each occurrence of [p] among its premises, in insertion order. *)
Definition bucket_of (cs : list (Clause Symbol)) (p : Symbol)
    : list (Clause Symbol) :=
  c ← cs; replicate (occurrences p c) c.

(** The premises of [c], with repetitions, that are not inferred yet. *)
Definition unknown (inferred : gmap Symbol bool) (c : Clause Symbol) : nat :=
  length (filter (λ x, inferred !! x ≠ Some true) (premise_literals c)).

(** [c] reaches the counter [0] while the bucket of [p] is processed. *)
Definition fires (count : gmap positive Z) (p : Symbol) (c : Clause Symbol)
    : bool :=
  match count !! oid c with
  | Some n => Z.leb 1 n && Z.leb n (Z.of_nat (occurrences p c))
  | None => false
  end.

(** What holds of the local variables each time the loop head is reached,
    on a knowledge base made of the clause objects [cs]: the counter of a
    clause is the number of its premises not inferred yet; what is in the
    agenda or inferred is derivable; the conclusion of a clause whose
    premises are all inferred is in the agenda or inferred; the path holds
    the inferred symbols; the query is not inferred. *)
Definition run_invariant (cs : list (Clause Symbol)) (query : Symbol)
    (st : Locals Symbol) : Prop :=
  (∀ c, c ∈ cs →
     count st !! oid c = Some (Z.of_nat (unknown (inferred st) c))) ∧
  (∀ x, x ∈ agenda st ∨ inferred st !! x = Some true → derivable cs x) ∧
  (∀ c, c ∈ cs →
     (∀ x, x ∈ premise_literals c → inferred st !! x = Some true) →
     conclusion_literal c ∈ agenda st
     ∨ inferred st !! conclusion_literal c = Some true) ∧
  (∀ x, x ∈ inference_path st ↔ inferred st !! x = Some true) ∧
  inferred st !! query ≠ Some true.

(** What the outcome of a call is to be: no exception, the verdict says
    whether the query is derivable, and without entailment the path holds
    exactly the derivable symbols. *)
Definition fixed_point_outcome (cs : list (Clause Symbol)) (query : Symbol)
    (out : Outcome Symbol) : Prop :=
  match out with
  | Returned is_entailed path =>
      (is_entailed = true ↔ derivable cs query) ∧
      (is_entailed = false → ∀ x, x ∈ path ↔ derivable cs x)
  | KeyError => False
  end.

(** The clauses whose counter is still positive: only they can reach [0],
    so only they can still feed the agenda. *)
Definition pending (count : gmap positive Z) : nat :=
  size (filter (λ kv, (0 < kv.2)%Z) count).

(** What a run can still do: the symbols waiting in the agenda and the
    clauses that can still fire. *)
Definition work (st : Locals Symbol) : nat :=
  length (agenda st) + pending (count st).

End Closure.

(** ** The invariant of the knowledge base *)

Section Invariant.
Context `{Countable Symbol}.

(** Every clause of the list stands in the bucket of each of its
    premises. *)
Definition indexed (kb : KnowledgeBase Symbol) : Prop :=
  ∀ c p, c ∈ clauses kb → p ∈ premise_literals c →
    c ∈ (get_clauses_with_premise kb p).1.

(** Clause by clause: a fact if and only if the conclusion is in
    [facts]. *)
Definition facts_iff_fact_clause (kb : KnowledgeBase Symbol) : Prop :=
  ∀ c, c ∈ clauses kb →
    (is_fact c = true ↔ conclusion_literal c ∈ facts kb).

(** Symbol by symbol: in [facts] if and only if the conclusion of a clause
    that is a fact. *)
Definition facts_are_fact_conclusions (kb : KnowledgeBase Symbol) : Prop :=
  ∀ x, x ∈ facts kb ↔
    ∃ c, c ∈ clauses kb ∧ is_fact c = true ∧ conclusion_literal c = x.

(** The premise index after the insertions [cs]; it does not depend on
    the order of the set of facts. *)
Definition index_of (cs : list (Clause Symbol))
    : gmap Symbol (list (Clause Symbol)) :=
  foldl (λ index c,
           foldl (λ index literal, bucket_append index literal c) index
                 (premise_literals c))
        ∅ cs.

End Invariant.

(** ** The knowledge bases of the tests *)

Section Tests.
Local Open Scope string_scope.

(** [setUp] of [tests/test_forward_chaining.py]: the four clause objects,
    at the identities [o1] to [o4]. *)
Definition test_clauses (o1 o2 o3 o4 : positive) : list (Clause string) :=
  [new_clause o1 [] "a"; new_clause o2 ["a"] "b";
   new_clause o3 ["a"; "b"] "c"; new_clause o4 ["b"] "d"].

(** [test_cyclic_knowledge_base]: the fact [a] and the rules [a → b],
    [b → c] and [c → a]. *)
Definition cyclic_clauses (o1 o2 o3 o4 : positive) : list (Clause string) :=
  [new_clause o1 [] "a"; new_clause o2 ["a"] "b";
   new_clause o3 ["b"] "c"; new_clause o4 ["c"] "a"].

(** Two facts. *)
Definition two_facts : list (Clause string) :=
  [new_clause 1 [] "a"; new_clause 2 [] "b"].

(** A fact and a rule with the same conclusion. *)
Definition fact_and_rule : list (Clause string) :=
  [new_clause 1 [] "a"; new_clause 2 ["b"] "a"].

(** One clause object inserted twice, after a fact. *)
Definition clause_twice : list (Clause string) :=
  let c := new_clause 2 ["a"; "b"] "z" in
  [new_clause 1 [] "a"; c; c].

End Tests.

(** ** The shape of a returned path *)

Section PathShape.
Context `{Countable Symbol}.

(** What a returned pair looks like: no symbol stands twice in the path;
    with [True] the query is the last symbol of the path; with [False] the
    query is not in the path. *)
Definition path_shape (query : Symbol) (out : Outcome Symbol) : Prop :=
  match out with
  | Returned is_entailed path =>
      NoDup path ∧
      (is_entailed = true → ∃ before, path = before ++ [query]) ∧
      (is_entailed = false → query ∉ path)
  | KeyError => True
  end.

(** At the loop head: the path has no repetition, its symbols are
    inferred, and the query is not. *)
Definition path_invariant (query : Symbol) (st : Locals Symbol) : Prop :=
  NoDup (inference_path st) ∧
  (∀ x, x ∈ inference_path st → inferred st !! x = Some true) ∧
  inferred st !! query ≠ Some true.

(** At the loop head, on a knowledge base made of [cs]: every clause has
    a counter, and what is in the agenda or in the path is the conclusion
    of a clause. *)
Definition origin_invariant (cs : list (Clause Symbol))
    (st : Locals Symbol) : Prop :=
  (∀ c, c ∈ cs → is_Some (count st !! oid c)) ∧
  (∀ x, x ∈ agenda st ∨ x ∈ inference_path st →
     ∃ c, c ∈ cs ∧ conclusion_literal c = x).

(** A returned pair whose path holds conclusions of clauses of [cs]. *)
Definition path_of_conclusions (cs : list (Clause Symbol))
    (out : Outcome Symbol) : Prop :=
  match out with
  | Returned _ path =>
      ∀ x, x ∈ path → ∃ c, c ∈ cs ∧ conclusion_literal c = x
  | KeyError => False
  end.

(** A path that is a derivation: each symbol is the conclusion of a
    clause whose premises all stand before it in the path. *)
Inductive derivation (cs : list (Clause Symbol)) : list Symbol → Prop :=
| derivation_nil : derivation cs []
| derivation_snoc path c :
    derivation cs path →
    c ∈ cs →
    (∀ p, p ∈ premise_literals c → p ∈ path) →
    derivation cs (path ++ [conclusion_literal c]).

(** At the loop head: the path is a derivation and every symbol of the
    agenda is the conclusion of a clause whose premises are in the path. *)
Definition order_invariant (cs : list (Clause Symbol))
    (st : Locals Symbol) : Prop :=
  derivation cs (inference_path st) ∧
  (∀ x, x ∈ agenda st →
     ∃ c, c ∈ cs ∧ conclusion_literal c = x ∧
          ∀ p, p ∈ premise_literals c → p ∈ inference_path st).

End PathShape.

(** ** Lines of the input format and the records of a trace *)

Section Formats.

(** The line that the input format has for a clause: every premise with a
    minus sign before it, then the conclusion, separated by one space. *)
Definition clause_line (premises : list pystr) (conclusion : pystr)
    : pystr :=
  join [32%N] (((λ p, 45%N :: p) <$> premises) ++ [conclusion]).

(** A line of tokens that are all negated: [from_string] finds no
    conclusion in it. *)
Definition no_conclusion (isspace : N → bool) (line : pystr) : Prop :=
  str_split isspace (strip isspace line) ≠ [] ∧
  Forall (λ l, startswith_minus l = true)
         (str_split isspace (strip isspace line)).

(** [k] calls of [increment_known_count] on one clause object. *)
Definition increment_times {Symbol : Type} (k : nat) (c : Clause Symbol)
    : Clause Symbol :=
  Nat.iter k (λ c, (increment_known_count c).1) c.

Context `{Countable Symbol}.

(** The value of the key ['step'] of a record. *)
Definition record_step (r : TraceRecord Symbol) : Z :=
  match r with
  | TraceInitialize step _ _ _ _ => step
  | TracePop step _ _ _ => step
  | TraceFound step _ _ => step
  | TraceInfer step _ _ => step
  | TraceUpdate step _ _ _ _ => step
  | TraceAdd step _ _ _ => step
  | TraceEmpty step _ _ => step
  end.

(** The records are numbered from 0 in the order of the list. *)
Definition numbered (trace : list (TraceRecord Symbol)) : Prop :=
  ∀ i r, trace !! i = Some r → record_step r = Z.of_nat i.

(** What a returned trace looks like: numbered records, the first one the
    initial state with the facts as agenda, the last one the verdict. *)
Definition trace_shape (str_of : Symbol → pystr) (kb : KnowledgeBase Symbol)
    (query : Symbol) (out : TracedOutcome Symbol) : Prop :=
  match out with
  | ReturnedTrace is_entailed path trace =>
      numbered trace ∧
      (∃ count0,
         head trace
         = Some (TraceInitialize 0 (lit "Initialize") (facts kb) ∅ count0)) ∧
      last trace
      = Some (if is_entailed
              then TraceFound (Z.of_nat (length trace) - 1)
                     (lit "Found query: " ++ str_of query) (lit "ENTAILED")
              else TraceEmpty (Z.of_nat (length trace) - 1)
                     (lit "Agenda empty") (lit "NOT ENTAILED"))
  | KeyErrorTrace => True
  end.

(** At the loop head of the traced engine: the records are numbered,
    [step] is the number of the next record, and the first record is the
    initial one. *)
Definition trace_invariant (kb : KnowledgeBase Symbol)
    (ts : TracedLocals Symbol) : Prop :=
  numbered (trace ts) ∧
  step ts = Z.of_nat (length (trace ts)) ∧
  ∃ count0,
    head (trace ts)
    = Some (TraceInitialize 0 (lit "Initialize") (facts kb) ∅ count0).

(** Two references with the same identity are references to the same
    object: they agree on the attributes. *)
Definition same_object_same_fields (cs : list (Clause Symbol)) : Prop :=
  ∀ c1 c2, c1 ∈ cs → c2 ∈ cs → oid c1 = oid c2 → c1 = c2.

(** How often the object [k] stands in a list of clauses. *)
Definition entries (k : positive) (l : list (Clause Symbol)) : nat :=
  length (filter (λ c, oid c = k) l).

(** The premises of [c], with repetitions, that are inferred. *)
Definition satisfied (inferred : gmap Symbol bool) (c : Clause Symbol)
    : nat :=
  length (filter (λ x, inferred !! x = Some true) (premise_literals c)).

(** How often the counter of the object [k] was decremented: once for
    every inferred premise of every reference to it in the list. *)
Definition decrements (inferred : gmap Symbol bool)
    (cs : list (Clause Symbol)) (k : positive) : nat :=
  sum_list ((λ c, if decide (oid c = k) then satisfied inferred c else 0)
              <$> cs).

(** At the loop head, whatever the number of insertions of an object:
    the counter of a clause is the number of its premises less the
    decrements; the conclusion of a clause whose counter is not positive
    is in the agenda or inferred; the inferred symbols are in the path;
    the query is not inferred. *)
Definition complete_invariant (cs : list (Clause Symbol)) (query : Symbol)
    (st : Locals Symbol) : Prop :=
  (∀ c, c ∈ cs →
     count st !! oid c
     = Some (Z.of_nat (length (premise_literals c))
             - Z.of_nat (decrements (inferred st) cs (oid c)))%Z) ∧
  (∀ c n, c ∈ cs → count st !! oid c = Some n → (n ≤ 0)%Z →
     conclusion_literal c ∈ agenda st
     ∨ inferred st !! conclusion_literal c = Some true) ∧
  (∀ x, inferred st !! x = Some true → x ∈ inference_path st) ∧
  inferred st !! query ≠ Some true.

(** A returned pair that misses no derivable symbol. *)
Definition complete_outcome (cs : list (Clause Symbol)) (query : Symbol)
    (out : Outcome Symbol) : Prop :=
  match out with
  | Returned is_entailed path =>
      (derivable cs query → is_entailed = true) ∧
      (is_entailed = false → ∀ x, derivable cs x → x ∈ path)
  | KeyError => False
  end.

End Formats.

(** * Part II: the properties *)

(** ** Termination of the loop and the frame of a run *)

Section Termination.
Context `{Countable Symbol}.

Lemma size_lookup_Some (m : gmap positive Z) k v :
  m !! k = Some v → size m = S (size (delete k m)).
Proof.
  intros Hk. rewrite <-(insert_id m k v) at 1 by done.
  rewrite <-insert_delete_eq.
  apply map_size_insert_None, lookup_delete_eq.
Qed.

Lemma pending_decrement (count : gmap positive Z) k n :
  count !! k = Some n →
  pending (<[k := (n - 1)%Z]> count) + (if Z.eqb (n - 1) 0 then 1 else 0)
  ≤ pending count.
Proof.
  intros Hk. unfold pending. rewrite map_filter_insert. simpl.
  destruct (decide (0 < n - 1)%Z) as [Hpos|Hpos].
  - assert (filter (λ kv, (0 < kv.2)%Z) count !! k = Some n) as Hf.
    { apply map_lookup_filter_Some. split; [done | simpl; lia]. }
    rewrite map_size_insert_Some by eauto.
    destruct (Z.eqb_spec (n - 1) 0); lia.
  - rewrite map_filter_delete.
    destruct (Z.eqb_spec (n - 1) 0) as [Hn|Hn].
    + assert (filter (λ kv, (0 < kv.2)%Z) count !! k = Some n) as Hf.
      { apply map_lookup_filter_Some. split; [done | simpl; lia]. }
      rewrite (size_lookup_Some _ _ _ Hf). lia.
    + rewrite map_size_delete.
      destruct (filter _ count !! k); simpl; lia.
Qed.

Lemma for_clauses_work (cs : list (Clause Symbol)) count agenda
    count' agenda' :
  for_clauses cs count agenda = Some (count', agenda') →
  length agenda' + pending count' ≤ length agenda + pending count.
Proof.
  revert count agenda. induction cs as [|c cs IH]; intros count agenda Hrun.
  - simpl in Hrun. by simplify_eq.
  - simpl in Hrun. destruct (count !! oid c) as [n|] eqn:Hk; [|done].
    apply IH in Hrun. pose proof (pending_decrement _ _ _ Hk) as Hdec.
    destruct (Z.eqb (n - 1) 0); [rewrite length_app in Hrun; simpl in Hrun|];
      lia.
Qed.

(** The knowledge base is only read. *)
Lemma loop_body_frame query (kb kb' : KnowledgeBase Symbol) st r :
  loop_body query kb st = (kb', r) → kb' = kb.
Proof.
  unfold loop_body, get_clauses_with_premise, inferred_get. intros Hstep.
  repeat (case_match; simplify_eq); done.
Qed.

(** An iteration that does not leave the loop uses up some work. *)
Lemma loop_body_work query (kb kb' : KnowledgeBase Symbol) st st' :
  loop_body query kb st = (kb', inl st') → work st' < work st.
Proof.
  unfold loop_body, get_clauses_with_premise, inferred_get, work.
  intros Hstep.
  repeat (case_match; simplify_eq); simpl;
    try match goal with
        | Hf : for_clauses _ _ _ = Some _ |- _ => apply for_clauses_work in Hf
        end;
    lia.
Qed.

Lemma while_agenda_frame fuel query (kb kb' : KnowledgeBase Symbol) st out :
  while_agenda fuel query kb st = Some (kb', out) → kb' = kb.
Proof.
  revert kb st. induction fuel as [|fuel IH]; intros kb st Hrun; [done|].
  simpl in Hrun.
  destruct (loop_body query kb st) as [kb1 [st1|out1]] eqn:Hstep.
  - apply loop_body_frame in Hstep as ->. by apply IH in Hrun.
  - apply loop_body_frame in Hstep. by simplify_eq.
Qed.

(** More fuel does not change the outcome of a run that has finished. *)
Lemma while_agenda_more_fuel fuel fuel' query (kb : KnowledgeBase Symbol)
    st r :
  while_agenda fuel query kb st = Some r → fuel ≤ fuel' →
  while_agenda fuel' query kb st = Some r.
Proof.
  revert fuel' kb st. induction fuel as [|fuel IH];
    intros fuel' kb st Hrun Hle; [done|].
  destruct fuel' as [|fuel']; [lia|]. simpl in *.
  destruct (loop_body query kb st) as [kb1 [st1|out1]]; [|done].
  apply IH; [done | lia].
Qed.

(** The loop is left within [work st + 1] iterations. *)
Lemma while_agenda_terminates fuel query (kb : KnowledgeBase Symbol) st :
  work st < fuel → ∃ out, while_agenda fuel query kb st = Some (kb, out).
Proof.
  revert kb st. induction fuel as [|fuel IH]; intros kb st Hlt; [lia|].
  simpl. destruct (loop_body query kb st) as [kb1 [st1|out1]] eqn:Hstep.
  - pose proof (loop_body_work _ _ _ _ _ Hstep) as Hwork.
    apply loop_body_frame in Hstep as ->. apply IH. lia.
  - apply loop_body_frame in Hstep as ->. eauto.
Qed.

Lemma size_init_count (cs : list (Clause Symbol)) :
  size (init_count cs) ≤ length cs.
Proof.
  unfold init_count.
  assert (∀ m : gmap positive Z,
    size (foldl (λ m c, <[oid c := Z.of_nat (length (premise_literals c))]> m)
                m cs) ≤ size m + length cs) as Hgen.
  { induction cs as [|c cs IH]; intros m; simpl; [lia|].
    etrans; [apply IH|]. rewrite map_size_insert.
    destruct (m !! oid c); simpl; lia. }
  specialize (Hgen ∅). by rewrite map_size_empty in Hgen.
Qed.

Lemma work_init_locals (kb : KnowledgeBase Symbol) :
  work (init_locals kb).1 < enough_fuel kb.
Proof.
  unfold work, enough_fuel, init_locals, get_facts, pending. simpl.
  pose proof (map_size_filter (λ kv : positive * Z, (0 < kv.2)%Z)
                (init_count (clauses kb))).
  pose proof (size_init_count (clauses kb)). lia.
Qed.

(** [enough_fuel] is enough: the outcome with it is the outcome with any
    larger number of iterations. *)
Lemma loop_fuel_enough (kb : KnowledgeBase Symbol) query :
  ∃ out, ∀ fuel, enough_fuel kb ≤ fuel →
    forward_chaining_fuel fuel kb query = Some (kb, out).
Proof.
  destruct (while_agenda_terminates (enough_fuel kb) query kb
              (init_locals kb).1 (work_init_locals kb)) as [out Hout].
  exists out. intros fuel Hle. unfold forward_chaining_fuel.
  unfold init_locals, get_facts in *. simpl in *.
  by apply while_agenda_more_fuel with (enough_fuel kb).
Qed.

(** A run that has an outcome with some fuel has it with [enough_fuel]. *)
Lemma forward_chaining_fuel_complete fuel (kb : KnowledgeBase Symbol)
    query r :
  forward_chaining_fuel fuel kb query = Some r →
  forward_chaining kb query = Some r.
Proof.
  intros Hrun. destruct (loop_fuel_enough kb query) as [out Hout].
  unfold forward_chaining. rewrite Hout by done.
  unfold forward_chaining_fuel, init_locals, get_facts in *. simpl in *.
  apply while_agenda_more_fuel with (fuel' := fuel `max` enough_fuel kb)
    in Hrun; [|lia].
  specialize (Hout (fuel `max` enough_fuel kb)). simpl in Hout.
  rewrite Hout in Hrun by lia. done.
Qed.

(** C2: for every knowledge base and every query the loop of
    [forward_chaining] is left after finitely many iterations, at most one
    more than there are facts and clauses, whatever the shape of the
    clauses (derivation cycles included), and the call has an outcome. *)
Theorem forward_chaining_terminates (kb : KnowledgeBase Symbol) query :
  ∃ n out, n = enough_fuel kb ∧
    ∀ fuel, n ≤ fuel → forward_chaining_fuel fuel kb query = Some (kb, out).
Proof.
  destruct (loop_fuel_enough kb query) as [out Hout]. eauto.
Qed.

(** C9: a call of [forward_chaining] leaves the knowledge base as it was:
    the clause list, the facts, the premise index and every attribute of
    every clause, [known_count] included; a second call on the same
    knowledge base has the outcome of the first. *)
Theorem forward_chaining_reads_only (kb : KnowledgeBase Symbol) query :
  ∃ out,
    forward_chaining kb query = Some (kb, out) ∧
    forward_chaining_twice kb query = Some (kb, out, out).
Proof.
  destruct (loop_fuel_enough kb query) as [out Hout].
  assert (forward_chaining kb query = Some (kb, out)) as Hrun.
  { apply Hout. done. }
  exists out. split; [done|].
  unfold forward_chaining_twice. by rewrite !Hrun.
Qed.

End Termination.

(** ** The knowledge base after a sequence of insertions *)

Section Build.
Context `{Countable Symbol} {order : SetOrder Symbol}.

Lemma elem_of_set_add (x y : Symbol) s : x ∈ set_add y s ↔ x = y ∨ x ∈ s.
Proof.
  destruct (decide (y ∈ s)) as [Hin|Hout].
  - rewrite set_add_present by done. intuition congruence.
  - rewrite (set_add_absent y s Hout). apply elem_of_cons.
Qed.

Lemma NoDup_set_add (y : Symbol) s : NoDup s → NoDup (set_add y s).
Proof.
  intros Hs. destruct (decide (y ∈ s)) as [Hin|Hout].
  - by rewrite set_add_present.
  - rewrite (set_add_absent y s Hout). by constructor.
Qed.

Lemma build_snoc (cs : list (Clause Symbol)) c :
  build (cs ++ [c]) = add_clause (build cs) c.
Proof. unfold build. by rewrite foldl_snoc. Qed.

Lemma clauses_build (cs : list (Clause Symbol)) : clauses (build cs) = cs.
Proof.
  induction cs as [|c cs IH] using rev_ind; [done|].
  rewrite build_snoc. simpl. by rewrite IH.
Qed.

Lemma NoDup_facts_build (cs : list (Clause Symbol)) :
  NoDup (facts (build cs)).
Proof.
  induction cs as [|c cs IH] using rev_ind; [constructor|].
  rewrite build_snoc. simpl. destruct (is_fact c); [|done].
  by apply NoDup_set_add.
Qed.

Lemma elem_of_facts_build (cs : list (Clause Symbol)) x :
  x ∈ facts (build cs) ↔
  ∃ c, c ∈ cs ∧ is_fact c = true ∧ conclusion_literal c = x.
Proof.
  induction cs as [|c cs IH] using rev_ind.
  - split; [by intros ?%elem_of_nil|]. by intros (? & ?%elem_of_nil & _).
  - rewrite build_snoc. simpl.
    assert (x ∈ facts (build cs) ∨ (is_fact c = true ∧ conclusion_literal c = x)
            ↔ ∃ c0, c0 ∈ cs ++ [c] ∧ is_fact c0 = true
                     ∧ conclusion_literal c0 = x) as Hiff.
    { rewrite IH. split.
      - intros [(c0 & ? & ? & ?)|[? ?]]; [exists c0|exists c];
          rewrite elem_of_app, list_elem_of_singleton; eauto.
      - intros (c0 & [?|Hc0]%elem_of_app & ? & ?); [eauto|].
        apply list_elem_of_singleton in Hc0 as ->. eauto. }
    rewrite <-Hiff. destruct (is_fact c) eqn:Hfact.
    + rewrite elem_of_set_add. intuition congruence.
    + intuition congruence.
Qed.

Lemma lookup_foldl_bucket_append (c : Clause Symbol) lits index p :
  default [] (foldl (λ index literal, bucket_append index literal c)
                    index lits !! p)
  = default [] (index !! p)
      ++ replicate (length (filter (λ x, x = p) lits)) c.
Proof.
  revert index. induction lits as [|l lits IH]; intros index; simpl.
  - by rewrite app_nil_r.
  - rewrite IH. unfold bucket_append. rewrite filter_cons.
    destruct (decide (l = p)) as [->|Hne].
    + rewrite lookup_insert_eq. simpl. by rewrite <-app_assoc.
    + by rewrite lookup_insert_ne.
Qed.

(** The bucket of a symbol holds the clauses that have it as a premise, in
    insertion order, each as often as the symbol stands in its premises. *)
Lemma bucket_build (cs : list (Clause Symbol)) p :
  (get_clauses_with_premise (build cs) p).1 = bucket_of cs p.
Proof.
  unfold get_clauses_with_premise, bucket_of. simpl.
  induction cs as [|c cs IH] using rev_ind; [done|].
  rewrite build_snoc. simpl. rewrite lookup_foldl_bucket_append, IH.
  rewrite bind_app. simpl. by rewrite app_nil_r.
Qed.

Lemma elem_of_bucket_of (cs : list (Clause Symbol)) p c :
  c ∈ bucket_of cs p ↔ c ∈ cs ∧ p ∈ premise_literals c.
Proof.
  unfold bucket_of. rewrite list_elem_of_bind. split.
  - intros (c0 & Hrep & Hin).
    apply elem_of_replicate in Hrep as [Heq Hocc]. subst c0.
    split; [done|].
    unfold occurrences in Hocc.
    destruct (filter (λ x, x = p) (premise_literals c)) as [|x l] eqn:Hf;
      [done|].
    assert (x ∈ filter (λ x, x = p) (premise_literals c)) as Hx.
    { rewrite Hf. left. }
    apply list_elem_of_filter in Hx as [-> ?]. done.
  - intros [Hin Hp]. exists c. split; [|done].
    apply elem_of_replicate. split; [done|]. unfold occurrences.
    assert (p ∈ filter (λ x, x = p) (premise_literals c)) as Hx.
    { by apply list_elem_of_filter. }
    destruct (filter _ _); [by apply elem_of_nil in Hx | done].
Qed.

(** C7: after any sequence of [add_clause] insertions into a new
    knowledge base, every clause of the list stands in the bucket of each
    of its premises, and a symbol is in [facts] exactly when it is the
    conclusion of a clause of the list that has no premises. *)
Theorem add_clause_invariant (cs : list (Clause Symbol)) :
  indexed (build cs) ∧ facts_are_fact_conclusions (build cs).
Proof.
  split.
  - intros c p Hc Hp. rewrite bucket_build. rewrite clauses_build in Hc.
    by apply elem_of_bucket_of.
  - intros x. rewrite clauses_build. apply elem_of_facts_build.
Qed.

End Build.

(** ** Runs on a knowledge base made by insertions *)

Section Runs.
Context `{Countable Symbol}.

Lemma init_count_snoc (cs : list (Clause Symbol)) c :
  init_count (cs ++ [c])
  = <[oid c := Z.of_nat (length (premise_literals c))]> (init_count cs).
Proof. unfold init_count. by rewrite foldl_snoc. Qed.

(** [count] has a key for every clause of the list. *)
Lemma init_count_covers (cs : list (Clause Symbol)) c :
  c ∈ cs → is_Some (init_count cs !! oid c).
Proof.
  induction cs as [|c' cs IH] using rev_ind; [by intros ?%elem_of_nil|].
  rewrite init_count_snoc, elem_of_app, list_elem_of_singleton.
  intros [Hin| ->].
  - destruct (decide (oid c' = oid c)) as [->|Hne].
    + rewrite lookup_insert_eq. eauto.
    + rewrite lookup_insert_ne by done. auto.
  - rewrite lookup_insert_eq. eauto.
Qed.

(** Where every clause of the bucket has a counter, the [for] loop raises
    nothing, appends to the agenda and keeps the keys of [count]. *)
Lemma for_clauses_covered (cs : list (Clause Symbol)) count agenda :
  (∀ c, c ∈ cs → is_Some (count !! oid c)) →
  ∃ count' pushed,
    for_clauses cs count agenda = Some (count', agenda ++ pushed) ∧
    ∀ k, is_Some (count' !! k) ↔ is_Some (count !! k).
Proof.
  revert count agenda. induction cs as [|c cs IH]; intros count agenda Hcov.
  - exists count, []. by rewrite app_nil_r.
  - destruct (Hcov c) as [n Hn]; [left|]. simpl. rewrite Hn.
    set (count1 := <[oid c := (n - 1)%Z]> count).
    assert (∀ k, is_Some (count1 !! k) ↔ is_Some (count !! k)) as Hkeys.
    { intros k. unfold count1. destruct (decide (oid c = k)) as [<-|Hne].
      - rewrite lookup_insert_eq, Hn. split; eauto.
      - by rewrite lookup_insert_ne. }
    destruct (IH count1
                (if Z.eqb (n - 1) 0 then agenda ++ [conclusion_literal c]
                 else agenda)) as (count' & pushed & Hrun & Hdom).
    { intros c' Hc'. apply Hkeys, Hcov. by right. }
    rewrite Hrun. destruct (Z.eqb (n - 1) 0).
    + exists count', (conclusion_literal c :: pushed).
      rewrite <-app_assoc. split; [done|]. intros k. by rewrite Hdom.
    + exists count', pushed. split; [done|]. intros k. by rewrite Hdom.
Qed.

Lemma while_agenda_S fuel query (kb : KnowledgeBase Symbol) st :
  while_agenda (S fuel) query kb st
  = match loop_body query kb st with
    | (kb', inl st') => while_agenda fuel query kb' st'
    | (kb', inr out) => Some (kb', out)
    end.
Proof. done. Qed.

(** The symbols that stand in the agenda before the query are inferred one
    by one, in order, and then the query is found. *)
Lemma run_to_query query (kb : KnowledgeBase Symbol) before :
  ∀ st after,
    agenda st = before ++ query :: after →
    NoDup before → query ∉ before →
    (∀ x, x ∈ before → inferred st !! x ≠ Some true) →
    (∀ p c, c ∈ (get_clauses_with_premise kb p).1 →
            is_Some (count st !! oid c)) →
    while_agenda (S (length before)) query kb st
    = Some (kb, Returned true (inference_path st ++ before ++ [query])).
Proof.
  induction before as [|p before IH];
    intros st after Hagenda Hnodup Hquery Hfresh Hcov.
  - simpl in *. unfold loop_body. rewrite Hagenda.
    by rewrite decide_True.
  - apply NoDup_cons in Hnodup as [Hp Hnodup].
    apply not_elem_of_cons in Hquery as [Hne Hquery].
    cbn [length]. rewrite while_agenda_S. unfold loop_body. rewrite Hagenda.
    cbn [app]. rewrite decide_False by done.
    assert (inferred_get (inferred st) p
            = (false, match inferred st !! p with
                      | Some _ => inferred st
                      | None => <[p := false]> (inferred st)
                      end)) as ->.
    { unfold inferred_get. specialize (Hfresh p (list_elem_of_here _ _)).
      destruct (inferred st !! p) as [[]|]; done. }
    cbn [get_clauses_with_premise].
    destruct (for_clauses_covered
                (default [] (clauses_by_premise kb !! p)) (count st)
                (before ++ query :: after) (Hcov p))
      as (count2 & pushed & -> & Hkeys).
    rewrite IH with (after := after ++ pushed); simpl.
    + by rewrite <-!app_assoc.
    + by rewrite <-app_assoc.
    + done.
    + done.
    + intros x Hx. rewrite lookup_insert_ne by (by intros ->).
      specialize (Hfresh x (list_elem_of_further _ _ _ Hx)).
      destruct (inferred st !! p); [done|].
      rewrite lookup_insert_ne by (by intros ->). done.
    + intros p' c Hc. apply Hkeys. by apply (Hcov p').
Qed.

Context {order : SetOrder Symbol}.

(** A query that is a fact: the facts that the set iterates before it are
    inferred first. *)
Lemma forward_chaining_fact_at (cs : list (Clause Symbol)) query
    before after :
  facts (build cs) = before ++ query :: after → query ∉ before →
  forward_chaining (build cs) query
  = Some (build cs, Returned true (before ++ [query])).
Proof.
  intros Hfacts Hquery.
  apply forward_chaining_fuel_complete with (fuel := S (length before)).
  unfold forward_chaining_fuel, init_locals, get_facts.
  pose proof (NoDup_facts_build cs) as Hnodup. rewrite Hfacts in Hnodup.
  apply NoDup_app in Hnodup as (Hnodup & _ & _).
  rewrite run_to_query with (before := before) (after := after); try done.
  - intros p c Hc. rewrite bucket_build in Hc.
    apply elem_of_bucket_of in Hc as [Hc _]. simpl.
    rewrite clauses_build. by apply init_count_covers.
Qed.

(** C3: when the query is a fact, [forward_chaining] returns
    [is_entailed = True], and the path holds the facts that the set of
    facts iterates before the query, in that order, and then the query;
    the path is the query alone when the query is the first fact. *)
Theorem forward_chaining_fact (cs : list (Clause Symbol)) query :
  query ∈ facts (build cs) →
  ∃ before after,
    facts (build cs) = before ++ query :: after ∧
    (query ∉ before) ∧
    forward_chaining (build cs) query
    = Some (build cs, Returned true (before ++ [query])).
Proof.
  intros Hin. apply list_elem_of_split_l in Hin as (before & after & Hf & Hq).
  exists before, after. split_and!; [done..|].
  by apply forward_chaining_fact_at with after.
Qed.

End Runs.

(** ** Orders of the set of facts *)

Section Orders.
Context {A : Type} `{EqDecision A}.

Lemma set_add_nil {order : SetOrder A} (x : A) : set_add x [] = [x].
Proof.
  apply Permutation_singleton_r, set_add_absent, not_elem_of_nil.
Qed.

Lemma set_add_second {order : SetOrder A} (x y : A) :
  x ≠ y → set_add y [x] = [x; y] ∨ set_add y [x] = [y; x].
Proof.
  intros Hne.
  assert (y ∉ [x]) as Hout by (rewrite list_elem_of_singleton; congruence).
  pose proof (set_add_absent y [x] Hout) as Hperm. symmetry in Hperm.
  apply Permutation_length_2_inv in Hperm as [->| ->]; auto.
Qed.

End Orders.

(** ** The knowledge bases of the tests *)

Section TestRuns.
Local Open Scope string_scope.

Lemma clauses_by_premise_build `{Countable Symbol} {order : SetOrder Symbol}
    (cs : list (Clause Symbol)) :
  clauses_by_premise (build cs) = index_of cs.
Proof.
  induction cs as [|c cs IH] using rev_ind; [done|].
  rewrite build_snoc. unfold index_of. rewrite foldl_snoc. simpl.
  by rewrite IH.
Qed.

Lemma build_unfold `{Countable Symbol} {order : SetOrder Symbol}
    (cs : list (Clause Symbol)) :
  build cs = {| clauses := cs; clauses_by_premise := index_of cs;
                facts := facts (build cs) |}.
Proof.
  rewrite <-(clauses_build cs) at 2. rewrite <-clauses_by_premise_build.
  by destruct (build cs).
Qed.

(** One iteration of the loop on a knowledge base whose buckets are given
    by hypotheses. *)
Ltac run_iteration :=
  try rewrite while_agenda_S; unfold loop_body at 1;
  cbn [agenda inferred count inference_path];
  first [rewrite decide_True by done | rewrite decide_False by done | idtac];
  unfold inferred_get;
  repeat match goal with
         | Hb : get_clauses_with_premise ?kb ?p = _
           |- context [get_clauses_with_premise ?kb ?p] => rewrite Hb
         end;
  simplify_map_eq.

(** Pairwise different identities, from [NoDup]. *)
Ltac distinct_oids Hnd :=
  repeat (apply NoDup_cons in Hnd as [? Hnd]);
  repeat match goal with
         | Hx : _ ∉ _ :: _ |- _ => apply not_elem_of_cons in Hx as [? Hx]
         end.

Context {order : SetOrder string}.

Lemma facts_test_clauses o1 o2 o3 o4 :
  facts (build (test_clauses o1 o2 o3 o4)) = ["a"].
Proof. cbn. apply set_add_nil. Qed.

(** The run of [test_forward_chaining_entailed] for the query ['c']. *)
Lemma forward_chaining_test_c o1 o2 o3 o4 :
  NoDup [o1; o2; o3; o4] →
  forward_chaining (build (test_clauses o1 o2 o3 o4)) "c"
  = Some (build (test_clauses o1 o2 o3 o4), Returned true ["a"; "b"; "c"]).
Proof.
  intros Hnd. distinct_oids Hnd.
  rewrite build_unfold, facts_test_clauses. set (kb := {| clauses := _ |}).
  assert (get_clauses_with_premise kb "a"
          = ([new_clause o2 ["a"] "b"; new_clause o3 ["a"; "b"] "c"], kb))
    as Ha by (vm_compute; reflexivity).
  assert (get_clauses_with_premise kb "b"
          = ([new_clause o3 ["a"; "b"] "c"; new_clause o4 ["b"] "d"], kb))
    as Hb by (vm_compute; reflexivity).
  unfold forward_chaining, forward_chaining_fuel, init_locals, get_facts,
    enough_fuel, init_count.
  cbn [clauses facts kb length Nat.add test_clauses foldl new_clause oid
       premise_literals].
  clearbody kb. repeat run_iteration. reflexivity.
Qed.

(** C4: on the knowledge base of the tests (the fact [a] and the rules
    [a → b], [a ∧ b → c] and [b → d], four clause objects inserted in this
    order), [forward_chaining] with the query ['d'] returns [True] and the
    path [a, b, c, d]: [c] enters the agenda before [d] and is inferred
    before [d] is found.  The path is not [a, b, d]. *)
Theorem forward_chaining_test_d o1 o2 o3 o4 :
  NoDup [o1; o2; o3; o4] →
  forward_chaining (build (test_clauses o1 o2 o3 o4)) "d"
  = Some (build (test_clauses o1 o2 o3 o4),
          Returned true ["a"; "b"; "c"; "d"]).
Proof.
  intros Hnd. distinct_oids Hnd.
  rewrite build_unfold, facts_test_clauses. set (kb := {| clauses := _ |}).
  assert (get_clauses_with_premise kb "a"
          = ([new_clause o2 ["a"] "b"; new_clause o3 ["a"; "b"] "c"], kb))
    as Ha by (vm_compute; reflexivity).
  assert (get_clauses_with_premise kb "b"
          = ([new_clause o3 ["a"; "b"] "c"; new_clause o4 ["b"] "d"], kb))
    as Hb by (vm_compute; reflexivity).
  assert (get_clauses_with_premise kb "c" = ([], kb))
    as Hc by (vm_compute; reflexivity).
  unfold forward_chaining, forward_chaining_fuel, init_locals, get_facts,
    enough_fuel, init_count.
  cbn [clauses facts kb length Nat.add test_clauses foldl new_clause oid
       premise_literals].
  clearbody kb. repeat run_iteration. reflexivity.
Qed.

(** The run of [test_forward_chaining_not_entailed]. *)
Lemma forward_chaining_test_e o1 o2 o3 o4 :
  NoDup [o1; o2; o3; o4] →
  forward_chaining (build (test_clauses o1 o2 o3 o4)) "e"
  = Some (build (test_clauses o1 o2 o3 o4),
          Returned false ["a"; "b"; "c"; "d"]).
Proof.
  intros Hnd. distinct_oids Hnd.
  rewrite build_unfold, facts_test_clauses. set (kb := {| clauses := _ |}).
  assert (get_clauses_with_premise kb "a"
          = ([new_clause o2 ["a"] "b"; new_clause o3 ["a"; "b"] "c"], kb))
    as Ha by (vm_compute; reflexivity).
  assert (get_clauses_with_premise kb "b"
          = ([new_clause o3 ["a"; "b"] "c"; new_clause o4 ["b"] "d"], kb))
    as Hb by (vm_compute; reflexivity).
  assert (get_clauses_with_premise kb "c" = ([], kb))
    as Hc by (vm_compute; reflexivity).
  assert (get_clauses_with_premise kb "d" = ([], kb))
    as Hd by (vm_compute; reflexivity).
  unfold forward_chaining, forward_chaining_fuel, init_locals, get_facts,
    enough_fuel, init_count.
  cbn [clauses facts kb length Nat.add test_clauses foldl new_clause oid
       premise_literals].
  clearbody kb. repeat run_iteration. reflexivity.
Qed.

(** The run of [test_cyclic_knowledge_base]: the cycle is left when [a]
    comes back to the agenda and is found inferred. *)
Lemma forward_chaining_test_cyclic o1 o2 o3 o4 :
  NoDup [o1; o2; o3; o4] →
  forward_chaining (build (cyclic_clauses o1 o2 o3 o4)) "d"
  = Some (build (cyclic_clauses o1 o2 o3 o4), Returned false ["a"; "b"; "c"]).
Proof.
  intros Hnd. distinct_oids Hnd.
  rewrite build_unfold.
  assert (facts (build (cyclic_clauses o1 o2 o3 o4)) = ["a"]) as ->.
  { cbn. apply set_add_nil. }
  set (kb := {| clauses := _ |}).
  assert (get_clauses_with_premise kb "a" = ([new_clause o2 ["a"] "b"], kb))
    as Ha by (vm_compute; reflexivity).
  assert (get_clauses_with_premise kb "b" = ([new_clause o3 ["b"] "c"], kb))
    as Hb by (vm_compute; reflexivity).
  assert (get_clauses_with_premise kb "c" = ([new_clause o4 ["c"] "a"], kb))
    as Hc by (vm_compute; reflexivity).
  unfold forward_chaining, forward_chaining_fuel, init_locals, get_facts,
    enough_fuel, init_count.
  cbn [clauses facts kb length Nat.add cyclic_clauses foldl new_clause oid
       premise_literals].
  clearbody kb. repeat run_iteration. reflexivity.
Qed.

(** The run of [test_empty_knowledge_base]. *)
Lemma forward_chaining_test_empty :
  forward_chaining (build []) "a" = Some (build [], Returned false []).
Proof. reflexivity. Qed.

(** Nothing derives [b] from the fact [a] and the rule [a ∧ b → z], so
    nothing derives [z]. *)
Lemma clause_twice_not_derivable : ¬ derivable clause_twice "z".
Proof.
  assert (¬ derivable clause_twice "b") as Hb.
  { intros Hd. inversion Hd as [c Hc _ Heq]. unfold clause_twice in Hc.
    repeat (apply elem_of_cons in Hc as [Hc|Hc];
            [subst c; discriminate Heq|]).
    by apply elem_of_nil in Hc. }
  intros Hd. inversion Hd as [c Hc Hprem Heq]. unfold clause_twice in Hc.
  apply elem_of_cons in Hc as [Hc|Hc]; [subst c; discriminate Heq|].
  assert (c = new_clause 2 ["a"; "b"] "z") as Hc2.
  { repeat (apply elem_of_cons in Hc as [Hc|Hc]; [done|]).
    by apply elem_of_nil in Hc. }
  subst c.
  apply Hb, Hprem. simpl. apply list_elem_of_further, list_elem_of_here.
Qed.

(** C1 at a knowledge base that holds one clause object twice: the fact
    [a], and the object for [a ∧ b → z] inserted two times.  The counter of
    the object starts at 2 and its two entries in the bucket of [a] take
    it to 0, so [z] is inferred although [b] is not derivable: the call
    returns [False] and the path [a, z], and [z] is not in the closure. *)
Theorem forward_chaining_clause_twice :
  forward_chaining (build clause_twice) "q"
  = Some (build clause_twice, Returned false ["a"; "z"])
  ∧ ¬ derivable clause_twice "z".
Proof.
  split; [|exact clause_twice_not_derivable].
  rewrite build_unfold.
  assert (facts (build clause_twice) = ["a"]) as ->.
  { cbn. apply set_add_nil. }
  vm_compute. reflexivity.
Qed.

(** On the same knowledge base the query ['z'] is answered [True]. *)
Lemma forward_chaining_clause_twice_entailed :
  forward_chaining (build clause_twice) "z"
  = Some (build clause_twice, Returned true ["a"; "z"]).
Proof.
  rewrite build_unfold.
  assert (facts (build clause_twice) = ["a"]) as ->.
  { cbn. apply set_add_nil. }
  vm_compute. reflexivity.
Qed.

End TestRuns.

(** ** What does not hold of the facts *)

Section Counterexamples.
Local Open Scope string_scope.

(** C7, as the specification has it: with the fact [a] and the rule [b → a] in the
    knowledge base, the rule is a clause whose conclusion is in [facts]
    although it is not a fact, whatever the order of the set. *)
Lemma facts_iff_fact_clause_fails :
  ¬ ∃ O : SetOrder string,
      indexed (build fact_and_rule)
      ∧ facts_iff_fact_clause (build fact_and_rule).
Proof.
  intros (O & _ & Hiff).
  specialize (Hiff (new_clause 2 ["b"] "a")).
  rewrite clauses_build in Hiff.
  assert (new_clause 2 ["b"] "a" ∈ fact_and_rule) as Hin.
  { apply list_elem_of_further, list_elem_of_here. }
  apply Hiff in Hin as [_ Hfact].
  assert (is_fact (new_clause 2 ["b"] "a") = true) as Habsurd; [|done].
  apply Hfact, elem_of_facts_build. exists (new_clause 1 [] "a").
  split_and!; [|done..]. apply list_elem_of_here.
Qed.

(** C3, as the specification has it: with the two facts [a] and [b] the set
    iterates one of them first, and the query for the other one returns a
    path of two symbols, whatever the order of the set. *)
Lemma fact_path_is_not_the_query :
  ¬ ∃ O : SetOrder string,
      ∀ query, query ∈ facts (build two_facts) →
        forward_chaining (build two_facts) query
        = Some (build two_facts, Returned true [query]).
Proof.
  intros (O & Hall).
  assert (facts (build two_facts) = set_add "b" (set_add "a" [])) as Hfacts
    by done.
  rewrite set_add_nil in Hfacts.
  destruct (set_add_second "a" "b") as [Hab|Hba]; [done|..].
  - rewrite Hab in Hfacts. specialize (Hall "b").
    rewrite (forward_chaining_fact_at two_facts "b" ["a"] []) in Hall.
    + assert ("b" ∈ facts (build two_facts)) as Hin.
      { rewrite Hfacts. apply list_elem_of_further, list_elem_of_here. }
      specialize (Hall Hin). discriminate Hall.
    + done.
    + by intros ?%list_elem_of_singleton.
  - rewrite Hba in Hfacts. specialize (Hall "a").
    rewrite (forward_chaining_fact_at two_facts "a" ["b"] []) in Hall.
    + assert ("a" ∈ facts (build two_facts)) as Hin.
      { rewrite Hfacts. apply list_elem_of_further, list_elem_of_here. }
      specialize (Hall Hin). discriminate Hall.
    + done.
    + by intros ?%list_elem_of_singleton.
Qed.

End Counterexamples.

(** ** The runs at given identities and a given order of the set *)

Section Instances.
Local Open Scope string_scope.

(** C4, at the identities 1 to 4 and with a set that iterates in insertion
    order. *)
Lemma forward_chaining_test_d_witness :
  NoDup [1; 2; 3; 4]%positive ∧
  forward_chaining (build (order := last_order) (test_clauses 1 2 3 4)) "d"
  = Some (build (order := last_order) (test_clauses 1 2 3 4),
          Returned true ["a"; "b"; "c"; "d"]).
Proof.
  assert (NoDup [1; 2; 3; 4]%positive) as Hnd.
  { apply (bool_decide_unpack _). vm_compute. reflexivity. }
  split; [exact Hnd|].
  apply (forward_chaining_test_d (order := last_order) 1 2 3 4 Hnd).
Defined.

(** C3 for the query ['b'] on the two facts, with a set that iterates in
    insertion order: the path is [a, b]. *)
Lemma forward_chaining_fact_witness :
  "b" ∈ facts (build (order := last_order) two_facts) ∧
  ∃ before after,
    facts (build (order := last_order) two_facts)
    = (before ++ "b" :: after)%list ∧
    ("b" ∉ before) ∧
    forward_chaining (build (order := last_order) two_facts) "b"
    = Some (build (order := last_order) two_facts,
            Returned true (before ++ ["b"])%list).
Proof.
  assert ("b" ∈ facts (build (order := last_order) two_facts)) as Hin.
  { vm_compute. apply list_elem_of_further, list_elem_of_here. }
  split; [exact Hin|].
  apply (forward_chaining_fact (order := last_order) two_facts "b" Hin).
Defined.

End Instances.

(** ** The parser *)

Section ParserProperties.
Variable isspace : N → bool.

Lemma lstrip_spaces (s : pystr) :
  (∀ ch, ch ∈ s → isspace ch = true) → lstrip isspace s = [].
Proof.
  induction s as [|ch s IH]; intros Hs; [done|]. simpl.
  rewrite (Hs ch) by left. apply IH. intros ch' Hch'. apply Hs. by right.
Qed.

Lemma lstrip_nil_spaces (s : pystr) :
  lstrip isspace s = [] → ∀ ch, ch ∈ s → isspace ch = true.
Proof.
  induction s as [|ch s IH]; intros Hs ch' Hch'; [by apply elem_of_nil in Hch'|].
  simpl in Hs. destruct (isspace ch) eqn:Hch; [|done].
  apply elem_of_cons in Hch' as [->|Hch']; [done|]. by apply IH.
Qed.

(** What [lstrip] returns is empty or starts with a character that is not
    white space. *)
Lemma lstrip_head (s : pystr) ch s' :
  lstrip isspace s = ch :: s' → isspace ch = false.
Proof.
  induction s as [|ch0 s IH]; intros Hs; [done|]. simpl in Hs.
  destruct (isspace ch0) eqn:Hch0; [by apply IH|]. by simplify_eq.
Qed.

Lemma strip_spaces (s : pystr) :
  (∀ ch, ch ∈ s → isspace ch = true) → strip isspace s = [].
Proof. intros Hs. unfold strip. by rewrite (lstrip_spaces s Hs). Qed.

Lemma split_from_nil (word s : pystr) :
  split_from isspace word s = [] ↔
  word = [] ∧ ∀ ch, ch ∈ s → isspace ch = true.
Proof.
  revert word. induction s as [|ch s IH]; intros word; simpl.
  - destruct word; split; try done.
    + intros _. split; [done|]. by intros ch ?%elem_of_nil.
    + by intros [? _].
  - destruct (isspace ch) eqn:Hch.
    + destruct word as [|w word].
      * rewrite IH. split; intros [_ Hs]; (split; [done|]).
        -- intros ch' [->|Hch']%elem_of_cons; [done|]. by apply Hs.
        -- intros ch' Hch'. apply Hs. by right.
      * split; [done|]. by intros [? _].
    + rewrite IH. split.
      * intros [Hw _]. by destruct word.
      * intros [_ Hs]. rewrite (Hs ch) in Hch by left. done.
Qed.

(** An input has no token exactly when it is empty or white space only. *)
Lemma no_tokens_iff (s : pystr) :
  str_split isspace (strip isspace s) = [] ↔
  ∀ ch, ch ∈ s → isspace ch = true.
Proof.
  unfold str_split. rewrite split_from_nil. split.
  - intros [_ Hstrip]. unfold strip in Hstrip.
    destruct (lstrip isspace (reverse (lstrip isspace s)))
      as [|ch0 rest] eqn:Hinner.
    + apply lstrip_nil_spaces.
      pose proof (lstrip_nil_spaces _ Hinner) as Hrev.
      destruct (lstrip isspace s) as [|ch1 s1] eqn:Houter; [done|].
      apply lstrip_head in Houter.
      rewrite (Hrev ch1) in Houter; [done|].
      rewrite elem_of_reverse. left.
    + pose proof (lstrip_head _ _ _ Hinner) as Hch0.
      rewrite (Hstrip ch0) in Hch0; [done|].
      rewrite elem_of_reverse. left.
  - intros Hs. split; [done|]. rewrite strip_spaces by done.
    by intros ch ?%elem_of_nil.
Qed.

(** The words that [split] returns are not empty and hold no white
    space. *)
Lemma split_from_words (word s : pystr) :
  (∀ ch, ch ∈ word → isspace ch = false) →
  ∀ w, w ∈ split_from isspace word s →
    w ≠ [] ∧ ∀ ch, ch ∈ w → isspace ch = false.
Proof.
  revert word. induction s as [|ch s IH]; intros word Hword w Hw; simpl in Hw.
  - destruct word as [|c word]; [by apply elem_of_nil in Hw|].
    apply list_elem_of_singleton in Hw as ->. done.
  - destruct (isspace ch) eqn:Hch.
    + destruct word as [|c word].
      * apply (IH []); [|done]. by intros ? ?%elem_of_nil.
      * apply elem_of_cons in Hw as [->|Hw]; [done|].
        apply (IH []); [|done]. by intros ? ?%elem_of_nil.
    + apply (IH (word ++ [ch])); [|done].
      intros ch' [?|Heq]%elem_of_app; [by apply Hword|].
      apply list_elem_of_singleton in Heq as ->. done.
Qed.

Lemma str_split_words (s : pystr) w :
  w ∈ str_split isspace s →
  w ≠ [] ∧ ∀ ch, ch ∈ w → isspace ch = false.
Proof. apply split_from_words. by intros ? ?%elem_of_nil. Qed.

(** The [for] loop over tokens that are all negated: every token becomes a
    premise and no conclusion is found. *)
Lemma scan_literals_negated literals premise :
  Forall (λ l, startswith_minus l = true) literals →
  scan_literals literals premise
  = (premise ++ ((λ l, Some (drop 1 l)) <$> literals), None).
Proof.
  revert premise. induction literals as [|l literals IH];
    intros premise Hall; simpl.
  - by rewrite app_nil_r.
  - apply Forall_cons in Hall as [Hl Hall]. rewrite Hl, IH by done.
    by rewrite <-app_assoc.
Qed.

(** The [for] loop stops at the first token that is not negated. *)
Lemma scan_literals_conclusion negs t rest premise :
  Forall (λ l, startswith_minus l = true) negs →
  startswith_minus t = false →
  scan_literals (negs ++ t :: rest) premise
  = (premise ++ ((λ l, Some (drop 1 l)) <$> negs), Some t).
Proof.
  revert premise. induction negs as [|l negs IH];
    intros premise Hall Ht; simpl.
  - by rewrite Ht, app_nil_r.
  - apply Forall_cons in Hall as [Hl Hall]. rewrite Hl, IH by done.
    by rewrite <-app_assoc.
Qed.

(** The tokens up to the first one that is not negated. *)
Lemma first_conclusion (literals : list pystr) :
  (∃ t, t ∈ literals ∧ startswith_minus t = false) →
  ∃ negs t rest,
    literals = negs ++ t :: rest ∧
    Forall (λ l, startswith_minus l = true) negs ∧
    startswith_minus t = false.
Proof.
  induction literals as [|l literals IH]; intros (t & Hin & Ht).
  - by apply elem_of_nil in Hin.
  - destruct (startswith_minus l) eqn:Hl.
    + apply elem_of_cons in Hin as [->|Hin]; [congruence|].
      destruct IH as (negs & t' & rest & -> & Hnegs & Ht'); [eauto|].
      exists (l :: negs), t', rest. split_and!; [done| |done].
      by constructor.
    + exists [], l, literals. split_and!; [done| |done]. constructor.
Qed.

Lemma all_negated_or_conclusion (literals : list pystr) :
  Forall (λ l, startswith_minus l = true) literals ∨
  ∃ t, t ∈ literals ∧ startswith_minus t = false.
Proof.
  induction literals as [|l literals [IH|(t & Hin & Ht)]].
  - left. constructor.
  - destruct (startswith_minus l) eqn:Hl.
    + left. by constructor.
    + right. exists l. split; [left|done].
  - right. exists t. split; [by right|done].
Qed.

(** [from_string] on tokens that are all negated. *)
Lemma from_string_negated addr (clause_str : pystr) :
  str_split isspace (strip isspace clause_str) ≠ [] →
  Forall (λ l, startswith_minus l = true)
         (str_split isspace (strip isspace clause_str)) →
  from_string isspace addr clause_str = ValueError.
Proof.
  intros Hsome Hall. unfold from_string.
  rewrite scan_literals_negated by done.
  destruct (str_split isspace (strip isspace clause_str))
    as [|first literals]; [done|].
  apply Forall_cons in Hall as [Hfirst Hall]. rewrite Hfirst.
  by rewrite andb_false_r.
Qed.

(** [from_string] on tokens of which one is not negated. *)
Lemma from_string_conclusion addr (clause_str : pystr) negs t rest :
  str_split isspace (strip isspace clause_str) = negs ++ t :: rest →
  Forall (λ l, startswith_minus l = true) negs →
  startswith_minus t = false →
  from_string isspace addr clause_str
  = Parsed (new_clause addr ((λ l, Some (drop 1 l)) <$> negs) (Some t)).
Proof.
  intros Htok Hnegs Ht. unfold from_string. rewrite Htok.
  by rewrite scan_literals_conclusion.
Qed.

(** C5: when some token of the input does not start with ['-'],
    [Clause.from_string] returns a clause; its premises are the tokens
    before the first such token, in order and without their ['-'], its
    conclusion is that token, and the tokens after it are ignored. *)
Theorem from_string_first_conclusion addr (clause_str : pystr) :
  (∃ t, t ∈ str_split isspace (strip isspace clause_str)
        ∧ startswith_minus t = false) →
  ∃ negs t rest,
    str_split isspace (strip isspace clause_str) = negs ++ t :: rest ∧
    Forall (λ l, startswith_minus l = true) negs ∧
    startswith_minus t = false ∧
    from_string isspace addr clause_str
    = Parsed (new_clause addr ((λ l, Some (drop 1 l)) <$> negs) (Some t)).
Proof.
  intros Hsome.
  destruct (first_conclusion _ Hsome) as (negs & t & rest & Htok & Hnegs & Ht).
  exists negs, t, rest. split_and!; [done..|].
  by apply from_string_conclusion with rest.
Qed.

(** C6: [Clause.from_string] raises [ValueError] exactly when the input
    has a token and every token starts with ['-']. *)
Theorem from_string_raises_iff addr (clause_str : pystr) :
  from_string isspace addr clause_str = ValueError ↔
  str_split isspace (strip isspace clause_str) ≠ [] ∧
  Forall (λ l, startswith_minus l = true)
         (str_split isspace (strip isspace clause_str)).
Proof.
  split.
  - intros Hraise.
    destruct (all_negated_or_conclusion
                (str_split isspace (strip isspace clause_str)))
      as [Hall|Hsome].
    + split; [|done]. intros Hnil. unfold from_string in Hraise.
      by rewrite Hnil in Hraise.
    + destruct (first_conclusion _ Hsome)
        as (negs & t & rest & Htok & Hnegs & Ht).
      by rewrite (from_string_conclusion addr _ _ _ _ Htok Hnegs Ht)
        in Hraise.
  - intros [Hsome Hall]. by apply from_string_negated.
Qed.

(** C10: on an input that is empty or white space only,
    [Clause.from_string] raises nothing; it returns a clause without
    premises whose conclusion is [None], and the clause is a fact. *)
Theorem from_string_blank addr (clause_str : pystr) :
  (∀ ch, ch ∈ clause_str → isspace ch = true) →
  str_split isspace (strip isspace clause_str) = [] ∧
  from_string isspace addr clause_str = Parsed (new_clause addr [] None) ∧
  is_fact (new_clause addr [] (None : option pystr)) = true.
Proof.
  intros Hblank. apply no_tokens_iff in Hblank.
  split_and!; [done| |done].
  unfold from_string. by rewrite Hblank.
Qed.

End ParserProperties.

(** ** The traced engine decides as the plain one *)

Section TraceProperties.
Context `{Countable Symbol}.
Variable str_of : Symbol → pystr.

(** The traced [for] loop updates [count] and [agenda] as the plain one
    and raises when the plain one does. *)
Lemma for_clauses_trace_plain (cs : list (Clause Symbol)) count agenda
    trace step :
  (λ r, (r.1.1.1, r.1.1.2))
    <$> for_clauses_trace str_of cs count agenda trace step
  = for_clauses cs count agenda.
Proof.
  revert count agenda trace step.
  induction cs as [|c cs IH]; intros count agenda trace step; simpl; [done|].
  destruct (count !! oid c) as [n|]; [|done].
  destruct (Z.eqb (n - 1) 0); apply IH.
Qed.

(** One iteration: the same exit with the same verdict and path, or the
    same local variables at the next loop head. *)
Lemma loop_body_trace_plain query (kb : KnowledgeBase Symbol) ts :
  prod_map id (sum_map locals (verdict_and_path))
    (loop_body_trace str_of query kb ts)
  = loop_body query kb (locals ts).
Proof.
  unfold loop_body_trace, loop_body.
  destruct (agenda (locals ts)) as [|p agenda1]; [done|].
  destruct (decide (p = query)); [done|].
  destruct (inferred_get (inferred (locals ts)) p) as [[] inferred1]; [done|].
  unfold get_clauses_with_premise.
  match goal with
  | |- context [for_clauses_trace str_of ?cs ?cnt ?ag ?tr ?sp] =>
      pose proof (for_clauses_trace_plain cs cnt ag tr sp) as Hfor;
      destruct (for_clauses_trace str_of cs cnt ag tr sp)
        as [[[[count2 agenda2] trace3] step3]|]
  end; simpl in Hfor; rewrite <-Hfor; done.
Qed.

Lemma while_agenda_trace_plain fuel query (kb : KnowledgeBase Symbol) ts :
  prod_map id verdict_and_path
    <$> while_agenda_trace str_of fuel query kb ts
  = while_agenda fuel query kb (locals ts).
Proof.
  revert kb ts. induction fuel as [|fuel IH]; intros kb ts; [done|].
  simpl. rewrite <-loop_body_trace_plain.
  destruct (loop_body_trace str_of query kb ts) as [kb' [ts'|out]]; simpl.
  - apply IH.
  - done.
Qed.

Lemma forward_chaining_with_trace_fuel_plain fuel
    (kb : KnowledgeBase Symbol) query :
  prod_map id verdict_and_path
    <$> forward_chaining_with_trace_fuel str_of fuel kb query
  = forward_chaining_fuel fuel kb query.
Proof.
  unfold forward_chaining_with_trace_fuel, forward_chaining_fuel.
  unfold init_traced_locals, init_locals, get_facts.
  apply while_agenda_trace_plain.
Qed.

(** C8: [forward_chaining_with_trace] leaves the knowledge base as
    [forward_chaining] does and returns the same verdict and the same
    path, or raises when [forward_chaining] raises; the loop heads of the
    two functions are reached with the same local variables. *)
Theorem forward_chaining_with_trace_plain (kb : KnowledgeBase Symbol) query :
  prod_map id verdict_and_path
    <$> forward_chaining_with_trace str_of kb query
  = forward_chaining kb query.
Proof.
  unfold forward_chaining_with_trace, forward_chaining.
  apply forward_chaining_with_trace_fuel_plain.
Qed.

End TraceProperties.

Section TraceExample.
Local Open Scope string_scope.

(** [test_forward_chaining_with_trace]: the verdict, the path, and the
    first and the last record of the trace. *)
Lemma forward_chaining_with_trace_test :
  ∃ kb' trace count0,
    forward_chaining_with_trace lit
      (build (order := last_order) (test_clauses 1 2 3 4)) "c"
    = Some (kb', ReturnedTrace true ["a"; "b"; "c"] trace) ∧
    length trace = 14 ∧
    head trace = Some (TraceInitialize 0 (lit "Initialize") ["a"] ∅ count0) ∧
    last trace
    = Some (TraceFound 13 (lit "Found query: c") (lit "ENTAILED")).
Proof.
  set (run := forward_chaining_with_trace lit
                (build (order := last_order) (test_clauses 1 2 3 4)) "c").
  vm_compute in run. eexists _, _, _.
  split; [subst run; reflexivity|].
  split_and!; vm_compute; reflexivity.
Qed.

End TraceExample.

(** ** The fixed point, on clause objects inserted once each *)

Section FixedPoint.
Context `{Countable Symbol}.

Lemma length_filter_zero {A} (P : A → Prop) `{∀ x, Decision (P x)}
    (l : list A) :
  length (filter P l) = 0 ↔ ∀ x, x ∈ l → ¬ P x.
Proof.
  induction l as [|a l IH].
  - split; [|done]. by intros _ x ?%elem_of_nil.
  - rewrite filter_cons. destruct (decide (P a)) as [Ha|Ha]; simpl.
    + split; [done|]. intros Hall. destruct (Hall a); [left|done].
    + rewrite IH. split.
      * intros Hall x [->|Hx]%elem_of_cons; auto.
      * intros Hall x Hx. apply Hall. by right.
Qed.

Lemma unknown_zero (inferred : gmap Symbol bool) (c : Clause Symbol) :
  unknown inferred c = 0 ↔
  ∀ x, x ∈ premise_literals c → inferred !! x = Some true.
Proof.
  unfold unknown. rewrite length_filter_zero. split.
  - intros Hall x Hx. specialize (Hall x Hx).
    destruct (decide (inferred !! x = Some true)); [done|]. by destruct Hall.
  - intros Hall x Hx Hne. by apply Hne, Hall.
Qed.

(** Inferring [p] takes its occurrences out of the unknown premises. *)
Lemma unknown_infer (inferred inferred' : gmap Symbol bool) p
    (c : Clause Symbol) :
  inferred !! p ≠ Some true →
  (∀ x, inferred' !! x = Some true ↔ x = p ∨ inferred !! x = Some true) →
  unknown inferred' c + occurrences p c = unknown inferred c.
Proof.
  intros Hp Hnew. unfold unknown, occurrences.
  induction (premise_literals c) as [|x l IH]; [done|].
  rewrite !filter_cons.
  destruct (decide (x = p)) as [->|Hne].
  - rewrite decide_False, decide_True by (try done; rewrite Hnew; tauto).
    simpl. lia.
  - destruct (decide (inferred !! x ≠ Some true)) as [Hx|Hx].
    + rewrite decide_True by (rewrite Hnew; tauto). simpl. lia.
    + rewrite decide_False by (rewrite Hnew; tauto). done.
Qed.

Lemma unknown_empty (c : Clause Symbol) :
  unknown ∅ c = length (premise_literals c).
Proof.
  unfold unknown. induction (premise_literals c) as [|x l IH]; [done|].
  rewrite filter_cons, decide_True by (by rewrite lookup_empty).
  simpl. by rewrite IH.
Qed.

Lemma inferred_get_true (inferred inferred1 : gmap Symbol bool) p :
  inferred_get inferred p = (true, inferred1) →
  inferred1 = inferred ∧ inferred !! p = Some true.
Proof.
  unfold inferred_get. destruct (inferred !! p) as [b|]; intros Heq;
    by simplify_eq.
Qed.

Lemma inferred_get_false (inferred inferred1 : gmap Symbol bool) p :
  inferred_get inferred p = (false, inferred1) →
  inferred !! p ≠ Some true ∧
  ∀ x, <[p := true]> inferred1 !! x = Some true
       ↔ x = p ∨ inferred !! x = Some true.
Proof.
  unfold inferred_get. intros Heq.
  assert (inferred !! p ≠ Some true ∧
          ∀ x, x ≠ p → inferred1 !! x = inferred !! x) as [Hp Hother].
  { destruct (inferred !! p) as [b|] eqn:Hlook; simplify_eq.
    - done.
    - split; [done|]. intros x Hx. by rewrite lookup_insert_ne. }
  split; [done|]. intros x. destruct (decide (x = p)) as [->|Hne].
  - rewrite lookup_insert_eq. tauto.
  - rewrite lookup_insert_ne, Hother by done. tauto.
Qed.

(** The entries of one clause in a bucket: the counter goes down by their
    number, and the conclusion is appended once if the counter passes
    [0]. *)
Lemma for_clauses_replicate k (c : Clause Symbol) rest count agenda n :
  count !! oid c = Some n →
  for_clauses (replicate k c ++ rest) count agenda
  = for_clauses rest (<[oid c := (n - Z.of_nat k)%Z]> count)
      (if Z.leb 1 n && Z.leb n (Z.of_nat k)
       then agenda ++ [conclusion_literal c] else agenda).
Proof.
  revert count agenda n. induction k as [|k IH]; intros count agenda n Hn.
  - cbn [replicate app]. rewrite Nat2Z.inj_0, Z.sub_0_r, insert_id by done.
    destruct (Z.leb_spec 1 n), (Z.leb_spec n 0); simpl; try done; lia.
  - cbn [replicate app for_clauses]. rewrite Hn.
    rewrite (IH _ _ (n - 1)%Z) by apply lookup_insert_eq.
    rewrite insert_insert_eq.
    replace (n - 1 - Z.of_nat k)%Z with (n - Z.of_nat (S k))%Z by lia.
    f_equal.
    destruct (Z.eqb_spec (n - 1) 0), (Z.leb_spec 1 (n - 1)),
      (Z.leb_spec (n - 1) (Z.of_nat k)), (Z.leb_spec 1 n),
      (Z.leb_spec n (Z.of_nat (S k))); simpl; try done; lia.
Qed.

Lemma fires_insert_ne (count : gmap positive Z) k v p (c : Clause Symbol) :
  oid c ≠ k → fires (<[k := v]> count) p c = fires count p c.
Proof. intros Hne. unfold fires. by rewrite lookup_insert_ne. Qed.

(** A whole bucket, when no clause object stands twice in the list: every
    counter goes down by the occurrences of [p] in the clause, and the
    conclusions appended are those of the clauses that fire. *)
Lemma for_clauses_bucket (cs : list (Clause Symbol)) p count agenda :
  NoDup (oid <$> cs) →
  (∀ c, c ∈ cs → is_Some (count !! oid c)) →
  ∃ count' pushed,
    for_clauses (bucket_of cs p) count agenda = Some (count', agenda ++ pushed) ∧
    (∀ c, c ∈ cs →
       count' !! oid c
       = (λ n, (n - Z.of_nat (occurrences p c))%Z) <$> count !! oid c) ∧
    (∀ k, k ∉ oid <$> cs → count' !! k = count !! k) ∧
    (∀ x, x ∈ pushed ↔
       ∃ c, c ∈ cs ∧ fires count p c = true ∧ conclusion_literal c = x).
Proof.
  revert count agenda. induction cs as [|c cs IH];
    intros count agenda Hnodup Hcov.
  - exists count, []. rewrite app_nil_r. split_and!; [done| | done |].
    + by intros c ?%elem_of_nil.
    + split; [by intros ?%elem_of_nil|]. by intros (c & ?%elem_of_nil & _).
  - rewrite fmap_cons in Hnodup. apply NoDup_cons in Hnodup as [Hc Hnodup].
    destruct (Hcov c) as [n Hn]; [left|].
    unfold bucket_of. rewrite bind_cons. fold (bucket_of cs p).
    rewrite (for_clauses_replicate _ _ _ _ _ n Hn).
    set (count1 := <[oid c := (n - Z.of_nat (occurrences p c))%Z]> count).
    assert (∀ c', c' ∈ cs → oid c' ≠ oid c) as Hother.
    { intros c' Hc' Heq. apply Hc. rewrite <-Heq.
      apply list_elem_of_fmap. eauto. }
    destruct (IH count1
                (if Z.leb 1 n && Z.leb n (Z.of_nat (occurrences p c))
                 then agenda ++ [conclusion_literal c] else agenda) Hnodup)
      as (count' & pushed & Hrun & Hcs & Hrest & Hpushed).
    { intros c' Hc'. unfold count1.
      rewrite lookup_insert_ne by (apply not_eq_sym; auto). apply Hcov.
      by right. }
    assert (∀ x, (∃ c', c' ∈ cs ∧ fires count1 p c' = true
                        ∧ conclusion_literal c' = x)
               ↔ ∃ c', c' ∈ cs ∧ fires count p c' = true
                        ∧ conclusion_literal c' = x) as Hfires.
    { intros x. split; intros (c' & Hc' & Hf & Hx); exists c';
        (split_and!; [done| |done]); unfold count1 in *.
      - by rewrite fires_insert_ne in Hf by auto.
      - by rewrite fires_insert_ne by auto. }
    assert (fires count p c
            = Z.leb 1 n && Z.leb n (Z.of_nat (occurrences p c))) as Hfc.
    { unfold fires. by rewrite Hn. }
    exists count',
      (if fires count p c then conclusion_literal c :: pushed else pushed).
    split_and!.
    + rewrite Hrun, <-Hfc. destruct (fires count p c); [|done].
      by rewrite <-app_assoc.
    + intros c' [->|Hc']%elem_of_cons.
      * rewrite Hrest by done. unfold count1.
        by rewrite lookup_insert_eq, Hn.
      * rewrite Hcs by done. unfold count1.
        by rewrite lookup_insert_ne by (apply not_eq_sym; auto).
    + intros k Hk. rewrite fmap_cons in Hk.
      apply not_elem_of_cons in Hk as [Hne Hk].
      rewrite Hrest by done. unfold count1. by rewrite lookup_insert_ne.
    + intros x. split.
      * intros Hx. destruct (fires count p c) eqn:Hf.
        -- apply elem_of_cons in Hx as [->|Hx].
           ++ exists c. split_and!; [left|done..].
           ++ apply Hpushed, Hfires in Hx as (c' & ? & ? & ?).
              exists c'. split_and!; [by right|done..].
        -- apply Hpushed, Hfires in Hx as (c' & ? & ? & ?).
           exists c'. split_and!; [by right|done..].
      * intros (c' & [->|Hc']%elem_of_cons & Hf & Hx).
        -- rewrite Hf. rewrite Hx. left.
        -- assert (x ∈ pushed) as Hin.
           { apply Hpushed, Hfires. eauto. }
           destruct (fires count p c); [by right|done].
Qed.

End FixedPoint.

Section FixedPointRun.
Context `{Countable Symbol}.
Variable cs : list (Clause Symbol).
Variable query : Symbol.
Variable kb : KnowledgeBase Symbol.
Hypothesis cs_once : NoDup (oid <$> cs).
Hypothesis kb_buckets :
  ∀ p, (get_clauses_with_premise kb p).1 = bucket_of cs p.

(** When the agenda is empty the inferred symbols are closed under the
    clauses. *)
Lemma run_invariant_closed st x :
  run_invariant cs query st → agenda st = [] →
  derivable cs x → inferred st !! x = Some true.
Proof.
  intros (_ & _ & Hfire & _ & _) Hagenda Hx.
  induction Hx as [c Hc _ IH].
  destruct (Hfire c Hc IH) as [Hin|Hin]; [|done].
  rewrite Hagenda in Hin. by apply elem_of_nil in Hin.
Qed.

(** An iteration keeps the invariant or leaves the loop with the right
    outcome. *)
Lemma loop_body_invariant st kb' r :
  run_invariant cs query st →
  loop_body query kb st = (kb', r) →
  match r with
  | inl st' => run_invariant cs query st'
  | inr out => fixed_point_outcome cs query out
  end.
Proof.
  intros Hinv Hstep.
  pose proof Hinv as (Hcount & Hsound & Hfire & Hpath & Hquery).
  unfold loop_body in Hstep.
  destruct (agenda st) as [|p agenda1] eqn:Hagenda.
  { (* the agenda is empty *)
    simplify_eq. simpl. split.
    - split; [done|]. intros Hq.
      by apply (run_invariant_closed st) in Hq.
    - intros _ x. rewrite Hpath. split.
      + intros Hx. apply Hsound. by right.
      + by apply run_invariant_closed. }
  destruct (decide (p = query)) as [->|Hne].
  { (* the query is found *)
    simplify_eq. simpl. split; [|done]. split; [|done].
    intros _. apply Hsound. left. left. }
  destruct (inferred_get (inferred st) p) as [[] inferred1] eqn:Hget.
  { (* [p] was inferred before *)
    apply inferred_get_true in Hget as [-> Hp]. simplify_eq.
    split_and!; simpl; [done| | |done|done].
    - intros x [Hx|Hx]; apply Hsound; [left; by right|by right].
    - intros c Hc Hprem.
      destruct (Hfire c Hc Hprem) as [[->|Hin]%elem_of_cons|Hin]; auto. }
  (* [p] is inferred now *)
  apply inferred_get_false in Hget as [Hp Hnew].
  pose proof (kb_buckets p) as Hbucket.
  unfold get_clauses_with_premise in *. simpl in Hbucket. rewrite Hbucket in Hstep.
  destruct (for_clauses_bucket cs p (count st) agenda1 cs_once)
    as (count2 & pushed & Hrun & Hcount2 & _ & Hpushed).
  { intros c Hc. rewrite Hcount by done. eauto. }
  rewrite Hrun in Hstep. simplify_eq.
  assert (derivable cs p) as Hderp by (apply Hsound; left; left).
  assert (∀ c, unknown (<[p := true]> inferred1) c + occurrences p c
               = unknown (inferred st) c) as Hunknown.
  { intros c. by apply unknown_infer. }
  assert (∀ c, c ∈ cs →
            fires (count st) p c = true ↔
            (1 ≤ unknown (inferred st) c ≤ occurrences p c)) as Hfires.
  { intros c Hc. unfold fires. rewrite Hcount by done.
    rewrite andb_true_iff, !Z.leb_le. lia. }
  split_and!; simpl.
  - intros c Hc. rewrite Hcount2, Hcount by done. simpl. f_equal.
    specialize (Hunknown c). lia.
  - intros x [[Hx|Hx]%elem_of_app|Hx].
    + apply Hsound. left. by right.
    + apply Hpushed in Hx as (c & Hc & Hf & <-).
      apply derivable_fire; [done|]. intros y Hy.
      apply Hfires in Hf; [|done]. specialize (Hunknown c).
      assert (unknown (<[p := true]> inferred1) c = 0) as Hzero by lia.
      rewrite unknown_zero in Hzero. specialize (Hzero y Hy).
      apply Hnew in Hzero as [->|Hy']; [done|]. apply Hsound. by right.
    + apply Hnew in Hx as [->|Hx]; [done|]. apply Hsound. by right.
  - intros c Hc Hprem. apply unknown_zero in Hprem.
    destruct (decide (unknown (inferred st) c = 0)) as [Hzero|Hpos].
    + rewrite unknown_zero in Hzero.
      destruct (Hfire c Hc Hzero) as [[->|Hin]%elem_of_cons|Hin].
      * right. apply Hnew. by left.
      * left. apply elem_of_app. by left.
      * right. apply Hnew. by right.
    + left. apply elem_of_app. right. apply Hpushed. exists c.
      split_and!; [done| |done]. apply Hfires; [done|].
      specialize (Hunknown c). lia.
  - intros x. rewrite elem_of_app, list_elem_of_singleton, Hnew, Hpath. tauto.
  - intros Hq. apply Hnew in Hq as [->|Hq]; done.
Qed.

Lemma while_agenda_invariant fuel st kb' out :
  run_invariant cs query st →
  while_agenda fuel query kb st = Some (kb', out) →
  fixed_point_outcome cs query out.
Proof.
  revert st. induction fuel as [|fuel IH]; intros st Hinv Hrun; [done|].
  rewrite while_agenda_S in Hrun.
  destruct (loop_body query kb st) as [kb1 [st1|out1]] eqn:Hstep.
  - pose proof (loop_body_invariant _ _ _ Hinv Hstep) as Hinv1.
    apply loop_body_frame in Hstep as ->. by apply (IH st1).
  - pose proof (loop_body_invariant _ _ _ Hinv Hstep) as Hout.
    by simplify_eq.
Qed.

End FixedPointRun.

Section FixedPointTheorem.
Context `{Countable Symbol} {order : SetOrder Symbol}.

Lemma init_count_lookup (cs : list (Clause Symbol)) c :
  NoDup (oid <$> cs) → c ∈ cs →
  init_count cs !! oid c = Some (Z.of_nat (length (premise_literals c))).
Proof.
  induction cs as [|c' cs IH] using rev_ind; [by intros _ ?%elem_of_nil|].
  rewrite fmap_app, init_count_snoc. simpl.
  intros (Hnodup & Hfresh & _)%NoDup_app [Hc|Hc]%elem_of_app.
  - rewrite lookup_insert_ne; [by apply IH|].
    intros Heq. apply (Hfresh (oid c)).
    + apply list_elem_of_fmap. eauto.
    + rewrite <-Heq. left.
  - apply list_elem_of_singleton in Hc as ->. apply lookup_insert_eq.
Qed.

(** The invariant holds when the loop head is first reached. *)
Lemma run_invariant_init (cs : list (Clause Symbol)) query :
  NoDup (oid <$> cs) →
  run_invariant cs query (init_locals (build cs)).1.
Proof.
  intros Hnodup. unfold init_locals, get_facts. simpl.
  rewrite clauses_build. split_and!; simpl.
  - intros c Hc. by rewrite init_count_lookup, unknown_empty.
  - intros x [Hx|Hx]; [|by rewrite lookup_empty in Hx].
    apply elem_of_facts_build in Hx as (c & Hc & Hfact & <-).
    apply derivable_fire; [done|]. intros p Hp.
    unfold is_fact in Hfact. apply Nat.eqb_eq in Hfact.
    destruct (premise_literals c); [by apply elem_of_nil in Hp|done].
  - intros c Hc Hprem. left. apply elem_of_facts_build. exists c.
    split_and!; [done| |done]. unfold is_fact.
    destruct (premise_literals c) as [|x l]; [done|].
    specialize (Hprem x (list_elem_of_here _ _)).
    by rewrite lookup_empty in Hprem.
  - intros x. rewrite lookup_empty. split; [by intros ?%elem_of_nil|done].
  - by rewrite lookup_empty.
Qed.

(** The outcome of a call on clause objects inserted once each. *)
Lemma forward_chaining_build_outcome (cs : list (Clause Symbol)) query :
  NoDup (oid <$> cs) →
  ∃ out,
    forward_chaining (build cs) query = Some (build cs, out) ∧
    fixed_point_outcome cs query out.
Proof.
  intros Hnodup.
  destruct (loop_fuel_enough (build cs) query) as [out Hout].
  specialize (Hout _ (reflexivity _)).
  exists out. split; [done|].
  unfold forward_chaining_fuel in Hout.
  destruct (init_locals (build cs)) as [st kb1] eqn:Hinit.
  pose proof (run_invariant_init cs query Hnodup) as Hinv.
  rewrite Hinit in Hinv. unfold init_locals, get_facts in Hinit.
  simplify_eq.
  eapply (while_agenda_invariant cs query (build cs) Hnodup);
    [apply bucket_build|exact Hinv|exact Hout].
Qed.

(** Soundness and completeness of [forward_chaining] on a knowledge base
    whose clause objects were inserted once each: the call raises nothing,
    its verdict says whether the query is derivable from the facts by
    clause firing, and when the verdict is [False] the path holds exactly
    the derivable symbols. *)
Theorem forward_chaining_fixed_point (cs : list (Clause Symbol)) query :
  NoDup (oid <$> cs) →
  ∃ is_entailed path,
    forward_chaining (build cs) query
    = Some (build cs, Returned is_entailed path) ∧
    (is_entailed = true ↔ derivable cs query) ∧
    (is_entailed = false → ∀ x, x ∈ path ↔ derivable cs x).
Proof.
  intros Hnodup.
  destruct (forward_chaining_build_outcome cs query Hnodup)
    as ([is_entailed path|] & Hrun & Hpost); [|done].
  exists is_entailed, path. by destruct Hpost.
Qed.

End FixedPointTheorem.

Section FixedPointWitness.
Local Open Scope string_scope.

(** The fixed point on the knowledge base of the tests, for the query
    ['e']. *)
Lemma forward_chaining_fixed_point_witness :
  NoDup (oid <$> test_clauses 1 2 3 4) ∧
  ∃ is_entailed path,
    forward_chaining (build (order := last_order) (test_clauses 1 2 3 4)) "e"
    = Some (build (order := last_order) (test_clauses 1 2 3 4),
            Returned is_entailed path) ∧
    (is_entailed = true ↔ derivable (test_clauses 1 2 3 4) "e") ∧
    (is_entailed = false →
     ∀ x, x ∈ path ↔ derivable (test_clauses 1 2 3 4) x).
Proof.
  assert (NoDup (oid <$> test_clauses 1 2 3 4)) as Hnodup.
  { apply (bool_decide_unpack _). vm_compute. reflexivity. }
  split; [exact Hnodup|].
  apply (forward_chaining_fixed_point (order := last_order)
           (test_clauses 1 2 3 4) "e" Hnodup).
Defined.

End FixedPointWitness.

(** ** The parser on the lines of the specification *)

Section ParserExamples.

(** The line [-a -b c] of the documentation of [from_string]. *)
Lemma from_string_rule :
  from_string py_isspace 7 (lit "-a -b c")
  = Parsed (new_clause 7 [Some (lit "a"); Some (lit "b")] (Some (lit "c"))).
Proof. vm_compute. reflexivity. Qed.

(** The tokens after the conclusion are ignored. *)
Lemma from_string_ignores_rest :
  from_string py_isspace 7 (lit "a b c")
  = Parsed (new_clause 7 [] (Some (lit "a"))).
Proof. vm_compute. reflexivity. Qed.

(** [test_from_string_invalid_no_conclusion] *)
Lemma from_string_no_conclusion :
  from_string py_isspace 7 (lit "-a -b -c") = ValueError.
Proof. vm_compute. reflexivity. Qed.

(** C5 on the line [-a -b c d]. *)
Lemma from_string_first_conclusion_witness :
  (∃ t, t ∈ str_split py_isspace (strip py_isspace (lit "-a -b c d"))
        ∧ startswith_minus t = false) ∧
  ∃ negs t rest,
    str_split py_isspace (strip py_isspace (lit "-a -b c d"))
    = negs ++ t :: rest ∧
    Forall (λ l, startswith_minus l = true) negs ∧
    startswith_minus t = false ∧
    from_string py_isspace 7 (lit "-a -b c d")
    = Parsed (new_clause 7 ((λ l, Some (drop 1 l)) <$> negs) (Some t)).
Proof.
  assert (∃ t, t ∈ str_split py_isspace (strip py_isspace (lit "-a -b c d"))
               ∧ startswith_minus t = false) as Hsome.
  { exists (lit "d"). split; [|reflexivity]. vm_compute.
    do 3 apply list_elem_of_further. apply list_elem_of_here. }
  split; [exact Hsome|].
  apply (from_string_first_conclusion py_isspace 7 (lit "-a -b c d") Hsome).
Defined.

(** C10 on a line of a space and a tab. *)
Lemma from_string_blank_witness :
  (∀ ch, ch ∈ [32; 9]%N → py_isspace ch = true) ∧
  str_split py_isspace (strip py_isspace [32; 9]%N) = [] ∧
  from_string py_isspace 7 [32; 9]%N = Parsed (new_clause 7 [] None) ∧
  is_fact (new_clause 7 [] (None : option pystr)) = true.
Proof.
  assert (∀ ch, ch ∈ [32; 9]%N → py_isspace ch = true) as Hblank.
  { intros ch Hch.
    apply elem_of_cons in Hch as [->|Hch]; [reflexivity|].
    apply list_elem_of_singleton in Hch as ->. reflexivity. }
  split; [exact Hblank|].
  apply (from_string_blank py_isspace 7 [32; 9]%N Hblank).
Defined.

End ParserExamples.

(** ** Knowledge bases loaded from a file *)

Section LoaderProperties.
Variable isspace : N → bool.
Context {order : SetOrder (option pystr)}.

Lemma from_string_oid addr (clause_str : pystr) c :
  from_string isspace addr clause_str = Parsed c → oid c = addr.
Proof.
  unfold from_string. intros Hparse.
  repeat (case_match; simplify_eq); done.
Qed.

(** A stripped line that is not empty holds a character that is not white
    space. *)
Lemma strip_cons (s : pystr) ch rest :
  strip isspace s = ch :: rest →
  ∃ ch', ch' ∈ strip isspace s ∧ isspace ch' = false.
Proof.
  unfold strip. intros Hstrip.
  destruct (lstrip isspace (reverse (lstrip isspace s)))
    as [|ch0 inner] eqn:Hinner; [done|].
  exists ch0. split; [rewrite elem_of_reverse; left|].
  by apply lstrip_head in Hinner.
Qed.

(** A clause parsed from a line with a character that is not white space
    has a conclusion. *)
Lemma from_string_has_conclusion addr (clause_str : pystr) c :
  (∃ ch, ch ∈ clause_str ∧ isspace ch = false) →
  from_string isspace addr clause_str = Parsed c →
  is_Some (conclusion_literal c).
Proof.
  intros (ch & Hch & Hspace) Hparse.
  assert (str_split isspace (strip isspace clause_str) ≠ []) as Htokens.
  { intros Hnil. rewrite no_tokens_iff in Hnil.
    rewrite (Hnil ch Hch) in Hspace. done. }
  destruct (all_negated_or_conclusion
              (str_split isspace (strip isspace clause_str)))
    as [Hall|Hsome].
  - by rewrite (from_string_negated isspace addr _ Htokens Hall) in Hparse.
  - destruct (first_conclusion _ Hsome)
      as (negs & t & rest & Htok & Hnegs & Ht).
    rewrite (from_string_conclusion isspace addr _ _ _ _ Htok Hnegs Ht)
      in Hparse.
    simplify_eq. simpl. eauto.
Qed.

(** Loading appends clause objects that are new and have a conclusion. *)
Lemma load_lines_build lines :
  ∀ addr (cs0 : list (Clause (option pystr))),
    (∀ c, c ∈ cs0 → (oid c < addr)%positive) →
    NoDup (oid <$> cs0) →
    (∀ c, c ∈ cs0 → is_Some (conclusion_literal c)) →
    ∃ cs,
      (load_lines isspace lines addr (build cs0)).1 = build cs ∧
      NoDup (oid <$> cs) ∧
      (∀ c, c ∈ cs → is_Some (conclusion_literal c)).
Proof.
  induction lines as [|line lines IH]; intros addr cs0 Hbelow Hnodup Hconcl.
  - exists cs0. done.
  - cbn [load_lines].
    destruct (strip isspace line) as [|ch rest] eqn:Hstrip; [by apply IH|].
    destruct (from_string isspace addr (ch :: rest)) as [c|] eqn:Hparse;
      [|by exists cs0].
    pose proof (from_string_oid _ _ _ Hparse) as Hoid.
    rewrite <-build_snoc. apply IH.
    + intros c' [Hc'|Hc']%elem_of_app.
      * specialize (Hbelow c' Hc'). lia.
      * apply list_elem_of_singleton in Hc' as ->. lia.
    + rewrite fmap_app. apply NoDup_app. split_and!; [done| |].
      * intros k Hk Hk'. apply list_elem_of_fmap in Hk as (c' & -> & Hc').
        simpl in Hk'. apply list_elem_of_singleton in Hk'.
        specialize (Hbelow c' Hc'). lia.
      * apply NoDup_singleton.
    + intros c' [Hc'|Hc']%elem_of_app; [by apply Hconcl|].
      apply list_elem_of_singleton in Hc' as ->.
      apply (from_string_has_conclusion addr (ch :: rest)); [|done].
      rewrite <-Hstrip. destruct (strip_cons _ _ _ Hstrip) as (ch' & ? & ?).
      eauto.
Qed.

(** A knowledge base loaded from a file, also one whose loading stopped
    at a line without conclusion: its clause objects are pairwise
    different and have a conclusion, and [forward_chaining] on it raises
    nothing and computes the fixed point. *)
Theorem load_from_file_fixed_point lines :
  ∃ cs,
    (load_from_file isspace lines).1 = build cs ∧
    NoDup (oid <$> cs) ∧
    (∀ c, c ∈ cs → is_Some (conclusion_literal c)) ∧
    ∀ query, ∃ out,
      forward_chaining (build cs) query = Some (build cs, out) ∧
      fixed_point_outcome cs query out.
Proof.
  destruct (load_lines_build lines 1 []) as (cs & Hload & Hnodup & Hconcl).
  - by intros c ?%elem_of_nil.
  - constructor.
  - by intros c ?%elem_of_nil.
  - exists cs. split_and!; [done..|].
    intros query. by apply forward_chaining_build_outcome.
Qed.

End LoaderProperties.

(** ** The shape of the returned path *)

Section PathShapeProperties.
Context `{Countable Symbol}.

Lemma loop_body_path_shape query (kb kb' : KnowledgeBase Symbol) st r :
  path_invariant query st →
  loop_body query kb st = (kb', r) →
  match r with
  | inl st' => path_invariant query st'
  | inr out => path_shape query out
  end.
Proof.
  intros (Hnodup & Hpath & Hquery) Hstep. unfold loop_body in Hstep.
  destruct (agenda st) as [|p agenda1].
  { simplify_eq. simpl. split_and!; [done..|].
    intros _ Hin. by apply Hquery, Hpath. }
  destruct (decide (p = query)) as [->|Hne].
  { simplify_eq. simpl. split_and!; [|eauto|done].
    apply NoDup_app. split_and!; [done| |apply NoDup_singleton].
    intros x Hx ->%list_elem_of_singleton. by apply Hquery, Hpath. }
  destruct (inferred_get (inferred st) p) as [[] inferred1] eqn:Hget.
  { apply inferred_get_true in Hget as [-> Hp]. by simplify_eq. }
  apply inferred_get_false in Hget as [Hp Hnew].
  unfold get_clauses_with_premise in Hstep.
  destruct (for_clauses _ _ _) as [[count2 agenda2]|]; simplify_eq; [|done].
  split_and!; simpl.
  - apply NoDup_app. split_and!; [done| |apply NoDup_singleton].
    intros x Hx ->%list_elem_of_singleton. by apply Hp, Hpath.
  - intros x [Hx|Hx]%elem_of_app; apply Hnew; [right; by apply Hpath|].
    apply list_elem_of_singleton in Hx. by left.
  - intros Hq. apply Hnew in Hq as [->|Hq]; done.
Qed.

Lemma while_agenda_path_shape fuel query (kb kb' : KnowledgeBase Symbol)
    st out :
  path_invariant query st →
  while_agenda fuel query kb st = Some (kb', out) →
  path_shape query out.
Proof.
  revert kb st. induction fuel as [|fuel IH]; intros kb st Hinv Hrun; [done|].
  rewrite while_agenda_S in Hrun.
  destruct (loop_body query kb st) as [kb1 [st1|out1]] eqn:Hstep.
  - pose proof (loop_body_path_shape _ _ _ _ _ Hinv Hstep). by apply (IH kb1 st1).
  - pose proof (loop_body_path_shape _ _ _ _ _ Hinv Hstep). by simplify_eq.
Qed.

(** On every knowledge base and for every query, the pair that
    [forward_chaining] returns has a path without repeated symbols; when
    the verdict is [True] the query is the last symbol of the path (and
    stands nowhere else in it), and when the verdict is [False] the query
    is not in the path. *)
Theorem forward_chaining_path_shape (kb : KnowledgeBase Symbol) query :
  ∃ out,
    forward_chaining kb query = Some (kb, out) ∧ path_shape query out.
Proof.
  destruct (loop_fuel_enough kb query) as [out Hout].
  specialize (Hout _ (reflexivity _)). exists out. split; [done|].
  unfold forward_chaining_fuel, init_locals, get_facts in Hout.
  eapply while_agenda_path_shape; [|exact Hout].
  split_and!; simpl; [constructor| |by rewrite lookup_empty].
  by intros x ?%elem_of_nil.
Qed.

End PathShapeProperties.

(** ** Runs on any sequence of insertions *)

Section BuiltRuns.
Context `{Countable Symbol} {order : SetOrder Symbol}.

(** What the [for] loop appends to the agenda are conclusions of clauses
    of the bucket. *)
Lemma for_clauses_pushed (l : list (Clause Symbol)) count agenda
    count' agenda' :
  for_clauses l count agenda = Some (count', agenda') →
  ∃ pushed,
    agenda' = agenda ++ pushed ∧
    ∀ x, x ∈ pushed → ∃ c, c ∈ l ∧ conclusion_literal c = x.
Proof.
  revert count agenda. induction l as [|c l IH]; intros count agenda Hrun.
  - simpl in Hrun. simplify_eq. exists []. rewrite app_nil_r.
    split; [done|]. by intros x ?%elem_of_nil.
  - simpl in Hrun. destruct (count !! oid c) as [n|]; [|done].
    apply IH in Hrun as (pushed & -> & Hpushed).
    destruct (Z.eqb (n - 1) 0).
    + exists (conclusion_literal c :: pushed). rewrite <-app_assoc.
      split; [done|]. intros x [->|Hx]%elem_of_cons.
      * exists c. split; [left|done].
      * destruct (Hpushed x Hx) as (c' & ? & ?). exists c'.
        split; [by right|done].
    + exists pushed. split; [done|]. intros x Hx.
      destruct (Hpushed x Hx) as (c' & ? & ?). exists c'.
      split; [by right|done].
Qed.

Lemma loop_body_origin (cs : list (Clause Symbol)) query kb' st r :
  origin_invariant cs st →
  loop_body query (build cs) st = (kb', r) →
  match r with
  | inl st' => origin_invariant cs st'
  | inr out => path_of_conclusions cs out
  end.
Proof.
  intros (Hcov & Horigin) Hstep. unfold loop_body in Hstep.
  destruct (agenda st) as [|p agenda1] eqn:Hagenda.
  { simplify_eq. simpl. intros x Hx. apply Horigin. by right. }
  destruct (decide (p = query)) as [->|Hne].
  { simplify_eq. simpl. intros x [Hx|Hx]%elem_of_app; apply Horigin.
    - by right.
    - apply list_elem_of_singleton in Hx as ->. left. left. }
  destruct (inferred_get (inferred st) p) as [[] inferred1] eqn:Hget.
  { simplify_eq. split; simpl; [done|].
    intros x [Hx|Hx]; apply Horigin; [left; by right|by right]. }
  pose proof (bucket_build cs p) as Hbucket.
  unfold get_clauses_with_premise in *. simpl in Hbucket.
  rewrite Hbucket in Hstep.
  destruct (for_clauses_covered (bucket_of cs p) (count st) agenda1)
    as (count2 & pushed & Hrun & Hkeys).
  { intros c [Hc _]%elem_of_bucket_of. by apply Hcov. }
  rewrite Hrun in Hstep. simplify_eq.
  apply for_clauses_pushed in Hrun as (pushed' & Heq & Hpushed).
  apply app_inv_head in Heq as ->.
  split; simpl.
  - intros c Hc. apply Hkeys. by apply Hcov.
  - intros x [[Hx|Hx]%elem_of_app|[Hx|Hx]%elem_of_app].
    + apply Horigin. left. by right.
    + destruct (Hpushed x Hx) as (c & [Hc _]%elem_of_bucket_of & ?). eauto.
    + apply Horigin. by right.
    + apply list_elem_of_singleton in Hx as ->. apply Horigin. left. left.
Qed.

Lemma while_agenda_origin (cs : list (Clause Symbol)) fuel query kb' st out :
  origin_invariant cs st →
  while_agenda fuel query (build cs) st = Some (kb', out) →
  path_of_conclusions cs out.
Proof.
  revert st. induction fuel as [|fuel IH]; intros st Hinv Hrun; [done|].
  rewrite while_agenda_S in Hrun.
  destruct (loop_body query (build cs) st) as [kb1 [st1|out1]] eqn:Hstep.
  - pose proof (loop_body_origin _ _ _ _ _ Hinv Hstep) as Hinv1.
    apply loop_body_frame in Hstep as ->. by apply (IH st1).
  - pose proof (loop_body_origin _ _ _ _ _ Hinv Hstep). by simplify_eq.
Qed.

(** The outcome of a call after any insertions: nothing is raised, and
    the path has the shape and the origin above. *)
Lemma forward_chaining_built_outcome (cs : list (Clause Symbol)) query :
  ∃ out,
    forward_chaining (build cs) query = Some (build cs, out) ∧
    path_of_conclusions cs out ∧ path_shape query out.
Proof.
  destruct (loop_fuel_enough (build cs) query) as [out Hout].
  specialize (Hout _ (reflexivity _)). exists out. split; [done|].
  unfold forward_chaining_fuel, init_locals, get_facts in Hout.
  split.
  - eapply while_agenda_origin; [|exact Hout]. split; simpl.
    + intros c Hc. rewrite clauses_build. by apply init_count_covers.
    + intros x [Hx|Hx]; [|by apply elem_of_nil in Hx].
      apply elem_of_facts_build in Hx as (c & ? & _ & ?). eauto.
  - eapply while_agenda_path_shape; [|exact Hout].
    split_and!; simpl; [constructor| |by rewrite lookup_empty].
    by intros x ?%elem_of_nil.
Qed.

Lemma elem_of_get_all_symbols (kb : KnowledgeBase Symbol) x :
  x ∈ get_all_symbols kb ↔
  ∃ c, c ∈ clauses kb ∧
       (x = conclusion_literal c ∨ x ∈ premise_literals c).
Proof.
  unfold get_all_symbols. rewrite list_elem_of_bind.
  split; intros (c & Hx & Hc); exists c.
  - apply elem_of_cons in Hx. done.
  - split; [|done]. by apply elem_of_cons.
Qed.

(** On a knowledge base made by any sequence of [add_clause] insertions
    (the same clause object may be inserted several times),
    [forward_chaining] raises no [KeyError]: it returns a pair, and every
    symbol of the returned path is the conclusion of a clause of the
    knowledge base, hence one of [get_all_symbols]. *)
Theorem forward_chaining_returns_conclusions (cs : list (Clause Symbol))
    query :
  ∃ is_entailed path,
    forward_chaining (build cs) query
    = Some (build cs, Returned is_entailed path) ∧
    ∀ x, x ∈ path →
      x ∈ get_all_symbols (build cs) ∧
      ∃ c, c ∈ cs ∧ conclusion_literal c = x.
Proof.
  destruct (forward_chaining_built_outcome cs query)
    as ([is_entailed path|] & Hrun & Horigin & _); [|done].
  exists is_entailed, path. split; [done|]. intros x Hx.
  destruct (Horigin x Hx) as (c & Hc & Hconcl). split; [|eauto].
  apply elem_of_get_all_symbols. exists c. rewrite clauses_build. auto.
Qed.

(** A query that is the conclusion of no clause is answered [False], and
    no exception is raised. *)
Theorem forward_chaining_unknown_query (cs : list (Clause Symbol)) query :
  (∀ c, c ∈ cs → conclusion_literal c ≠ query) →
  ∃ path,
    forward_chaining (build cs) query = Some (build cs, Returned false path).
Proof.
  intros Hunknown.
  destruct (forward_chaining_built_outcome cs query)
    as ([[] path|] & Hrun & Horigin & Hshape); [|by eauto|done].
  destruct Hshape as (_ & Hlast & _).
  destruct (Hlast eq_refl) as (before & ->).
  destruct (Horigin query) as (c & Hc & Hconcl).
  { apply elem_of_app. right. left. }
  by destruct (Hunknown c Hc).
Qed.

(** Without a clause that has no premises nothing is inferred: the call
    returns [False] and the empty path, whatever the query. *)
Theorem forward_chaining_without_facts (cs : list (Clause Symbol)) query :
  (∀ c, c ∈ cs → is_fact c = false) →
  forward_chaining (build cs) query = Some (build cs, Returned false []).
Proof.
  intros Hrules.
  assert (facts (build cs) = []) as Hfacts.
  { destruct (facts (build cs)) as [|x l] eqn:Hf; [done|].
    assert (x ∈ facts (build cs)) as Hx by (rewrite Hf; left).
    apply elem_of_facts_build in Hx as (c & Hc & Hfact & _).
    rewrite (Hrules c Hc) in Hfact. done. }
  unfold forward_chaining, forward_chaining_fuel, enough_fuel, init_locals,
    get_facts.
  rewrite while_agenda_S. unfold loop_body. simpl. by rewrite Hfacts.
Qed.

End BuiltRuns.

(** ** The path as a derivation, on clause objects inserted once each *)

Section DerivationOrder.
Context `{Countable Symbol}.
Variable cs : list (Clause Symbol).
Variable query : Symbol.
Variable kb : KnowledgeBase Symbol.
Hypothesis cs_once : NoDup (oid <$> cs).
Hypothesis kb_buckets :
  ∀ p, (get_clauses_with_premise kb p).1 = bucket_of cs p.

Lemma loop_body_order st kb' r :
  run_invariant cs query st → order_invariant cs st →
  loop_body query kb st = (kb', r) →
  match r with
  | inl st' => order_invariant cs st'
  | inr (Returned _ path) => derivation cs path
  | inr KeyError => True
  end.
Proof.
  intros (Hcount & _ & _ & Hpath & _) (Hderiv & Hagenda) Hstep.
  unfold loop_body in Hstep.
  destruct (agenda st) as [|p agenda1] eqn:Heq.
  { by simplify_eq. }
  destruct (Hagenda p) as (cp & Hcp & Hconcl & Hprem); [left|].
  assert (derivation cs (inference_path st ++ [p])) as Hderiv'.
  { rewrite <-Hconcl. by apply derivation_snoc. }
  destruct (decide (p = query)) as [->|Hne].
  { by simplify_eq. }
  destruct (inferred_get (inferred st) p) as [[] inferred1] eqn:Hget.
  { simplify_eq. split; simpl; [done|]. intros x Hx. apply Hagenda.
    by right. }
  apply inferred_get_false in Hget as [Hp Hnew].
  pose proof (kb_buckets p) as Hbucket.
  unfold get_clauses_with_premise in *. simpl in Hbucket.
  rewrite Hbucket in Hstep.
  destruct (for_clauses_bucket cs p (count st) agenda1 cs_once)
    as (count2 & pushed & Hrun & _ & _ & Hpushed).
  { intros c Hc. rewrite Hcount by done. eauto. }
  rewrite Hrun in Hstep. clear Hconcl. simplify_eq. split; simpl; [done|].
  intros x [Hx|Hx]%elem_of_app.
  - destruct (Hagenda x) as (c & Hc & ? & Hc_prem); [by right|].
    exists c. split_and!; [done..|]. intros y Hy. apply elem_of_app.
    left. by apply Hc_prem.
  - apply Hpushed in Hx as (c & Hc & Hf & <-).
    exists c. split_and!; [done..|]. intros y Hy.
    unfold fires in Hf. rewrite Hcount in Hf by done.
    apply andb_true_iff in Hf as [_ Hle%Z.leb_le].
    pose proof (unknown_infer (inferred st) (<[p := true]> inferred1) p c
                  Hp Hnew) as Hunknown.
    assert (unknown (<[p := true]> inferred1) c = 0) as Hzero by lia.
    rewrite unknown_zero in Hzero. specialize (Hzero y Hy).
    apply Hnew in Hzero as [->|Hy'].
    + apply elem_of_app. right. left.
    + apply elem_of_app. left. by apply Hpath.
Qed.

Lemma while_agenda_order fuel st kb' out :
  run_invariant cs query st → order_invariant cs st →
  while_agenda fuel query kb st = Some (kb', out) →
  match out with
  | Returned _ path => derivation cs path
  | KeyError => True
  end.
Proof.
  revert st. induction fuel as [|fuel IH]; intros st Hinv Hord Hrun; [done|].
  rewrite while_agenda_S in Hrun.
  destruct (loop_body query kb st) as [kb1 [st1|out1]] eqn:Hstep.
  - pose proof (loop_body_invariant cs query kb cs_once kb_buckets
                  _ _ _ Hinv Hstep) as Hinv1.
    pose proof (loop_body_order _ _ _ Hinv Hord Hstep) as Hord1.
    apply loop_body_frame in Hstep as ->. by apply (IH st1).
  - pose proof (loop_body_order _ _ _ Hinv Hord Hstep). by simplify_eq.
Qed.

End DerivationOrder.

Section DerivationTheorems.
Context `{Countable Symbol}.

Lemma derivable_subseteq (cs1 cs2 : list (Clause Symbol)) x :
  (∀ c, c ∈ cs1 → c ∈ cs2) → derivable cs1 x → derivable cs2 x.
Proof.
  intros Hsub Hx. induction Hx as [c Hc _ IH].
  apply derivable_fire; auto.
Qed.

(** Every symbol of a derivation is derivable. *)
Lemma derivation_derivable (cs : list (Clause Symbol)) path :
  derivation cs path → ∀ x, x ∈ path → derivable cs x.
Proof.
  induction 1 as [|path c Hpath IH Hc Hprem].
  - by intros x ?%elem_of_nil.
  - intros x [Hx|Hx]%elem_of_app; [by apply IH|].
    apply list_elem_of_singleton in Hx as ->.
    apply derivable_fire; [done|]. intros p Hp. by apply IH, Hprem.
Qed.

(** The path that [forward_chaining] returns, with either verdict, lists
    the symbols in an order in which they can be derived: each symbol is
    the conclusion of a clause whose premises all stand earlier in the
    path (a fact has none).  The clause objects are inserted once each. *)
Theorem forward_chaining_path_derivation {order : SetOrder Symbol}
    (cs : list (Clause Symbol)) query :
  NoDup (oid <$> cs) →
  ∃ is_entailed path,
    forward_chaining (build cs) query
    = Some (build cs, Returned is_entailed path) ∧
    derivation cs path.
Proof.
  intros Hnodup.
  destruct (forward_chaining_build_outcome cs query Hnodup)
    as ([is_entailed path|] & Hrun & Hpost); [|done].
  exists is_entailed, path. split; [done|].
  unfold forward_chaining, forward_chaining_fuel in Hrun.
  pose proof (run_invariant_init cs query Hnodup) as Hinv.
  unfold init_locals, get_facts in *. simpl in Hinv.
  assert (order_invariant cs
            {| count := init_count (clauses (build cs)); inferred := ∅;
               agenda := facts (build cs); inference_path := [] |}) as Hord.
  { split; simpl; [constructor|]. intros x Hx.
    apply elem_of_facts_build in Hx as (c & Hc & Hfact & Hconcl).
    exists c. split_and!; [done..|]. intros p Hp.
    unfold is_fact in Hfact. apply Nat.eqb_eq in Hfact.
    destruct (premise_literals c); [by apply elem_of_nil in Hp|done]. }
  exact (while_agenda_order cs query (build cs) Hnodup (bucket_build cs)
           _ _ _ _ Hinv Hord Hrun).
Qed.

(** The verdict does not depend on the order of the insertions nor on the
    order in which the sets iterate, and neither does the set of symbols
    of the path when the verdict is [False]: two knowledge bases made of
    the same clause objects, each inserted once, give the same verdict,
    and with [False] paths that are permutations of each other. *)
Theorem forward_chaining_order_independent (order1 order2 : SetOrder Symbol)
    (cs1 cs2 : list (Clause Symbol)) query :
  NoDup (oid <$> cs1) → cs1 ≡ₚ cs2 →
  ∃ is_entailed path1 path2,
    forward_chaining (build (order := order1) cs1) query
    = Some (build (order := order1) cs1, Returned is_entailed path1) ∧
    forward_chaining (build (order := order2) cs2) query
    = Some (build (order := order2) cs2, Returned is_entailed path2) ∧
    (is_entailed = false → path1 ≡ₚ path2).
Proof.
  intros Hnodup1 Hperm.
  assert (NoDup (oid <$> cs2)) as Hnodup2 by (by rewrite <-Hperm).
  assert (∀ x, derivable cs1 x ↔ derivable cs2 x) as Hsame.
  { intros x. split; apply derivable_subseteq; intros c Hc.
    - by rewrite <-Hperm.
    - by rewrite Hperm. }
  destruct (forward_chaining_build_outcome (order := order1) cs1 query
              Hnodup1) as ([b1 path1|] & Hrun1 & Hpost1); [|done].
  destruct (forward_chaining_build_outcome (order := order2) cs2 query
              Hnodup2) as ([b2 path2|] & Hrun2 & Hpost2); [|done].
  destruct Hpost1 as [Hb1 Hpath1], Hpost2 as [Hb2 Hpath2].
  assert (b2 = b1) as ->.
  { destruct b1, b2; try done.
    - assert (false = true) as ?; [|done]. by apply Hb2, Hsame, Hb1.
    - assert (false = true) as ?; [|done]. by apply Hb1, Hsame, Hb2. }
  exists b1, path1, path2. split_and!; [done..|]. intros ->.
  destruct (forward_chaining_built_outcome (order := order1) cs1 query)
    as (out1 & Hrun1' & _ & Hshape1).
  destruct (forward_chaining_built_outcome (order := order2) cs2 query)
    as (out2 & Hrun2' & _ & Hshape2).
  rewrite Hrun1 in Hrun1'. rewrite Hrun2 in Hrun2'. simplify_eq.
  destruct Hshape1 as (Hnd1 & _), Hshape2 as (Hnd2 & _).
  apply NoDup_Permutation; [done..|]. intros x.
  by rewrite (Hpath1 eq_refl), (Hpath2 eq_refl).
Qed.


End DerivationTheorems.

(** ** Insertion and lookup *)

Section Lookup.
Context `{Countable Symbol} {order : SetOrder Symbol}.

(** After any insertions, [get_clauses_with_premise] returns the clause
    objects that have the symbol among their premises, in insertion
    order, each as often as the symbol stands in its premises; it returns
    the empty list exactly for a symbol that is a premise of no clause;
    and it leaves the knowledge base as it is (no bucket is created for an
    unknown symbol). *)
Theorem get_clauses_with_premise_inserted (cs : list (Clause Symbol)) p :
  get_clauses_with_premise (build cs) p
  = (c ← cs; replicate (occurrences p c) c, build cs) ∧
  (∀ c, c ∈ (get_clauses_with_premise (build cs) p).1
        ↔ c ∈ cs ∧ p ∈ premise_literals c) ∧
  ((get_clauses_with_premise (build cs) p).1 = []
   ↔ ∀ c, c ∈ cs → p ∉ premise_literals c).
Proof.
  pose proof (bucket_build cs p) as Hbucket.
  assert (∀ c, c ∈ (get_clauses_with_premise (build cs) p).1
               ↔ c ∈ cs ∧ p ∈ premise_literals c) as Hmem.
  { intros c. rewrite Hbucket. apply elem_of_bucket_of. }
  split_and!; [|done|].
  - unfold get_clauses_with_premise in *. simpl in *. by rewrite Hbucket.
  - split.
    + intros Hnil c Hc Hp.
      assert (c ∈ (get_clauses_with_premise (build cs) p).1) as Hin
        by (by apply Hmem).
      rewrite Hnil in Hin. by apply elem_of_nil in Hin.
    + intros Hnone.
      destruct (get_clauses_with_premise (build cs) p).1 as [|c l] eqn:Hl;
        [done|].
      destruct (Hmem c) as [Hin _]. destruct Hin as [Hc Hp]; [left|].
      by destruct (Hnone c Hc).
Qed.

(** After any insertions, the symbols of [get_all_symbols] are the
    conclusions of the inserted clauses and the symbols for which
    [get_clauses_with_premise] returns a list that is not empty; every
    symbol of [get_facts] is among them. *)
Theorem get_all_symbols_build (cs : list (Clause Symbol)) x :
  (x ∈ get_all_symbols (build cs) ↔
   (∃ c, c ∈ cs ∧ conclusion_literal c = x)
   ∨ (get_clauses_with_premise (build cs) x).1 ≠ []) ∧
  ∀ y, y ∈ (get_facts (build cs)).1 → y ∈ get_all_symbols (build cs).
Proof.
  assert (∀ y, y ∈ get_all_symbols (build cs) ↔
               ∃ c, c ∈ cs ∧ (y = conclusion_literal c
                               ∨ y ∈ premise_literals c)) as Hsym.
  { intros y. unfold get_all_symbols. rewrite clauses_build.
    rewrite list_elem_of_bind.
    split; intros (c & Hy & Hc); exists c.
    - apply elem_of_cons in Hy. done.
    - split; [|done]. by apply elem_of_cons. }
  split.
  - rewrite Hsym, bucket_build. split.
    + intros (c & Hc & [->|Hx]); [left; eauto|].
      right. intros Hnil.
      assert (c ∈ bucket_of cs x) as Hin by (by apply elem_of_bucket_of).
      rewrite Hnil in Hin. by apply elem_of_nil in Hin.
    + intros [(c & Hc & <-)|Hne]; [eauto|].
      destruct (bucket_of cs x) as [|c l] eqn:Hl; [done|].
      assert (c ∈ bucket_of cs x) as Hin by (rewrite Hl; left).
      apply elem_of_bucket_of in Hin as [Hc Hx]. eauto.
  - intros y Hy. simpl in Hy.
    apply elem_of_facts_build in Hy as (c & Hc & _ & <-).
    apply Hsym. eauto.
Qed.

End Lookup.

(** ** The counter of a clause *)

Section KnownCount.
Context {Symbol : Type}.

Lemma increment_times_fields k (c : Clause Symbol) :
  oid (increment_times k c) = oid c ∧
  premise_literals (increment_times k c) = premise_literals c ∧
  conclusion_literal (increment_times k c) = conclusion_literal c ∧
  known_count (increment_times k c) = (known_count c + Z.of_nat k)%Z.
Proof.
  induction k as [|k (Hoid & Hprem & Hconcl & Hcount)].
  - simpl. split_and!; [done..|]. lia.
  - unfold increment_times in *. rewrite Nat.iter_succ.
    destruct (Nat.iter k _ c) as [o prem concl n]. simpl in *.
    split_and!; [done..|]. lia.
Qed.

(** [increment_known_count] counts calls, not premises: after [k] calls
    on a new clause [known_count] is [k], also beyond the number of
    premises, and the next call returns [True] exactly when it is at
    least the call number [len(premise_literals)]; on a fact every call
    returns [True].  The other attributes are left as they are. *)
Theorem increment_known_count_calls addr (premise : list Symbol)
    conclusion k :
  let c := increment_times k (new_clause addr premise conclusion) in
  known_count c = Z.of_nat k ∧
  premise_literals c = premise ∧
  conclusion_literal c = conclusion ∧
  ((increment_known_count c).2 = true ↔ length premise ≤ S k).
Proof.
  intros c.
  destruct (increment_times_fields k (new_clause addr premise conclusion))
    as (_ & Hprem & Hconcl & Hcount).
  fold c in Hprem, Hconcl, Hcount. simpl in *.
  split_and!; [lia|done..|].
  unfold increment_known_count. simpl. rewrite Hprem, Hcount.
  rewrite Z.geb_le. lia.
Qed.

End KnownCount.

(** ** Parsing a line of the input format, and parsing what is printed *)

Section ParserRoundTrip.
Variable isspace : N → bool.

Lemma split_from_lstrip (s : pystr) :
  split_from isspace [] (lstrip isspace s) = split_from isspace [] s.
Proof.
  induction s as [|ch s IH]; [done|]. simpl.
  destruct (isspace ch) eqn:Hch; [done|]. simpl. by rewrite Hch.
Qed.

(** A white space at the end of the string ends the last word or is
    skipped. *)
Lemma split_from_snoc_space (word s : pystr) ch :
  isspace ch = true →
  split_from isspace word (s ++ [ch]) = split_from isspace word s.
Proof.
  intros Hch. revert word. induction s as [|c s IH]; intros word; simpl.
  - rewrite Hch. by destruct word.
  - destruct (isspace c); [|by apply IH]. destruct word; by rewrite IH.
Qed.

Lemma split_from_rstrip (word s : pystr) :
  split_from isspace word (reverse (lstrip isspace (reverse s)))
  = split_from isspace word s.
Proof.
  induction s as [|ch s IH] using rev_ind; [done|].
  rewrite reverse_app. simpl.
  destruct (isspace ch) eqn:Hch.
  - by rewrite IH, split_from_snoc_space.
  - by rewrite reverse_cons, reverse_involutive.
Qed.

(** The [strip()] before [split()] changes nothing. *)
Lemma str_split_strip (s : pystr) :
  str_split isspace (strip isspace s) = str_split isspace s.
Proof.
  unfold str_split, strip. by rewrite split_from_rstrip, split_from_lstrip.
Qed.

Lemma split_from_word (word w s : pystr) :
  (∀ ch, ch ∈ w → isspace ch = false) →
  split_from isspace word (w ++ s) = split_from isspace (word ++ w) s.
Proof.
  revert word. induction w as [|c w IH]; intros word Hw; simpl.
  - by rewrite app_nil_r.
  - rewrite (Hw c) by left. rewrite IH.
    + by rewrite <-app_assoc.
    + intros ch Hch. apply Hw. by right.
Qed.

Lemma join_cons_cons (sep w w' : pystr) words :
  join sep (w :: w' :: words) = w ++ sep ++ join sep (w' :: words).
Proof. done. Qed.

Lemma split_from_space (word s : pystr) ch :
  isspace ch = true → word ≠ [] →
  split_from isspace word (ch :: s) = word :: split_from isspace [] s.
Proof. intros Hch Hword. simpl. rewrite Hch. by destruct word. Qed.

Lemma split_from_nonspace (word s : pystr) ch :
  isspace ch = false →
  split_from isspace word (ch :: s) = split_from isspace (word ++ [ch]) s.
Proof. intros Hch. simpl. by rewrite Hch. Qed.

(** Words joined by one space are split into the same words. *)
Lemma str_split_join (words : list pystr) :
  isspace 32 = true →
  (∀ w, w ∈ words → w ≠ [] ∧ ∀ ch, ch ∈ w → isspace ch = false) →
  str_split isspace (join [32%N] words) = words.
Proof.
  intros Hspace. unfold str_split.
  induction words as [|w words IH]; intros Hwords; [done|].
  destruct (Hwords w) as [Hne Hw]; [left|].
  assert (split_from isspace [] (join [32%N] words) = words) as IH'.
  { apply IH. intros w' Hw'. apply Hwords. by right. }
  destruct words as [|w' words].
  - simpl. rewrite <-(app_nil_r w) at 1. rewrite split_from_word by done.
    simpl. by destruct w.
  - rewrite join_cons_cons, split_from_word by done.
    change ([] ++ w) with w. change ([32%N] ++ ?x) with (32%N :: x).
    rewrite split_from_space by done. by rewrite IH'.
Qed.

(** The first word of a string that starts with a character that is not
    white space starts with that character. *)
Lemma split_from_head (word s : pystr) :
  word ≠ [] →
  ∃ t rest, split_from isspace word s = (word ++ t) :: rest.
Proof.
  revert word. induction s as [|ch s IH]; intros word Hword; simpl.
  - exists [], []. rewrite app_nil_r. by destruct word.
  - destruct (isspace ch).
    + exists [], (split_from isspace [] s). rewrite app_nil_r.
      by destruct word.
    + destruct (IH (word ++ [ch])) as (t & rest & ->).
      { by destruct word. }
      exists (ch :: t), rest. by rewrite <-app_assoc.
Qed.

(** [from_string] reads a string with or without the white space around
    it in the same way: the [strip()] of [load_from_file] and the one of
    [from_string] itself change nothing of the clause. *)
Theorem from_string_strip addr (clause_str : pystr) :
  from_string isspace addr (strip isspace clause_str)
  = from_string isspace addr clause_str ∧
  str_split isspace (strip isspace clause_str)
  = str_split isspace clause_str.
Proof.
  split; [|apply str_split_strip].
  unfold from_string. by rewrite !str_split_strip.
Qed.

(** A line written in the input format parses to the clause it stands
    for: for premises without white space and a conclusion that is not
    empty, has no white space and does not start with a minus sign,
    [from_string] of the line ["-p1 ... -pn c"] returns the clause with
    the premises [p1, ..., pn], in order, and the conclusion [c]. *)
Theorem from_string_clause_line addr (premises : list pystr)
    (conclusion : pystr) :
  isspace 32 = true → isspace 45 = false →
  (∀ p ch, p ∈ premises → ch ∈ p → isspace ch = false) →
  conclusion ≠ [] →
  (∀ ch, ch ∈ conclusion → isspace ch = false) →
  startswith_minus conclusion = false →
  from_string isspace addr (clause_line premises conclusion)
  = Parsed (new_clause addr (Some <$> premises) (Some conclusion)).
Proof.
  intros Hspace Hminus Hprem Hne Hconcl Hpos.
  assert (str_split isspace (strip isspace (clause_line premises conclusion))
          = ((λ p, 45%N :: p) <$> premises) ++ conclusion :: []) as Htok.
  { rewrite str_split_strip. unfold clause_line. apply str_split_join; [done|].
    intros w [Hw|Hw]%elem_of_app.
    - apply list_elem_of_fmap in Hw as (p & -> & Hp). split; [done|].
      intros ch [->|Hch]%elem_of_cons; [done|]. by apply (Hprem p).
    - apply list_elem_of_singleton in Hw as ->. done. }
  rewrite (from_string_conclusion isspace addr _ _ _ _ Htok); [|by apply
    Forall_fmap, Forall_true|done].
  by rewrite <-list_fmap_compose.
Qed.

(** What [Clause.__str__] prints for a fact is read back by
    [from_string] as the fact: for a clause without premises whose
    conclusion is a string that is not empty, has no white space and does
    not start with a minus sign. *)
Theorem from_string_clause_str_fact addr (c : Clause (option pystr)) s :
  premise_literals c = [] → conclusion_literal c = Some s →
  s ≠ [] → (∀ ch, ch ∈ s → isspace ch = false) →
  startswith_minus s = false →
  from_string isspace addr (clause_str str_of_value c)
  = Parsed (new_clause addr [] (Some s)).
Proof.
  intros Hprem Hconcl Hne Hs Hpos.
  unfold clause_str. rewrite Hprem, Hconcl. simpl.
  assert (str_split isspace (strip isspace s) = [] ++ s :: []) as Htok.
  { rewrite str_split_strip. unfold str_split.
    rewrite <-(app_nil_r s) at 1. rewrite split_from_word by done.
    simpl. by destruct s. }
  by rewrite (from_string_conclusion isspace addr _ _ _ _ Htok).
Qed.

(** What [Clause.__str__] prints for a clause with premises is not read
    back as the clause: [from_string] returns a clause without premises
    whose conclusion is the first word of the text, which starts with the
    opening parenthesis. *)
Theorem from_string_clause_str_rule addr (c : Clause (option pystr)) :
  isspace 40 = false →
  premise_literals c ≠ [] →
  ∃ t, from_string isspace addr (clause_str str_of_value c)
       = Parsed (new_clause addr [] (Some (40%N :: t))).
Proof.
  intros Hparen Hprem. unfold clause_str.
  destruct (premise_literals c) as [|p premises] eqn:Hp; [done|].
  change (lit "(") with [40%N]. cbn [app].
  match goal with
  | |- context [from_string isspace addr (40%N :: ?text)] =>
      destruct (split_from_head [40%N] text) as (t & rest & Hsplit);
      [done|];
      assert (str_split isspace (strip isspace (40%N :: text))
              = [] ++ (40%N :: t) :: rest) as Htok
  end.
  { rewrite str_split_strip. unfold str_split.
    rewrite split_from_nonspace by done. exact Hsplit. }
  exists t. by rewrite (from_string_conclusion isspace addr _ _ _ _ Htok).
Qed.

End ParserRoundTrip.

(** ** What loading keeps and where it stops *)

Section LoadingProperties.
Variable isspace : N → bool.
Context {order : SetOrder (option pystr)}.

(** A stripped line is empty exactly when the line has no token. *)
Lemma strip_nil_iff (line : pystr) :
  strip isspace line = [] ↔ str_split isspace (strip isspace line) = [].
Proof.
  split.
  - by intros ->.
  - intros Hnil. apply strip_spaces. by apply no_tokens_iff.
Qed.

(** [from_string] on a stripped line of negated tokens. *)
Lemma from_string_no_conclusion_line addr (line : pystr) :
  no_conclusion isspace line →
  strip isspace line ≠ [] ∧
  from_string isspace addr (strip isspace line) = ValueError.
Proof.
  intros [Hsome Hall]. split.
  - intros Hnil. by rewrite Hnil in Hsome.
  - apply from_string_negated; by rewrite str_split_strip.
Qed.

(** [from_string] on a stripped line with a conclusion. *)
Lemma from_string_good_line addr (line : pystr) :
  strip isspace line ≠ [] → ¬ no_conclusion isspace line →
  ∃ c, from_string isspace addr (strip isspace line) = Parsed c.
Proof.
  intros Hnonblank Hgood.
  destruct (all_negated_or_conclusion
              (str_split isspace (strip isspace line))) as [Hall|Hsome].
  - destruct Hgood. split; [|done]. by rewrite <-strip_nil_iff.
  - destruct (first_conclusion _ Hsome)
      as (negs & t & rest & Htok & Hnegs & Ht).
    rewrite <-(str_split_strip isspace (strip isspace line)) in Htok.
    rewrite (from_string_conclusion isspace addr _ _ _ _ Htok Hnegs Ht).
    eauto.
Qed.

(** Loading succeeds when no line consists of negated tokens only, and
    then the knowledge base has one more clause for every line that is not
    blank, in the order of the file, each the clause that [from_string]
    returns for the stripped line; blank lines add nothing. *)
Theorem load_lines_loaded lines :
  ∀ addr (kb : KnowledgeBase (option pystr)),
    (∀ line, line ∈ lines → ¬ no_conclusion isspace line) →
    ∃ kb' cs,
      load_lines isspace lines addr kb = (kb', Loaded) ∧
      clauses kb' = clauses kb ++ cs ∧
      Forall2 (λ line c,
                 ∃ a, from_string isspace a (strip isspace line) = Parsed c)
              (filter (λ line, strip isspace line ≠ []) lines) cs.
Proof.
  induction lines as [|line lines IH]; intros addr kb Hgood.
  - exists kb, []. rewrite app_nil_r. split_and!; [done..|]. constructor.
  - cbn [load_lines]. rewrite filter_cons.
    destruct (strip isspace line) as [|ch rest] eqn:Hstrip.
    + rewrite decide_False by (by intros ?). apply IH.
      intros l Hl. apply Hgood. by right.
    + rewrite decide_True by done.
      destruct (from_string_good_line addr line) as (c & Hparse).
      { by rewrite Hstrip. }
      { apply Hgood. left. }
      rewrite Hstrip in Hparse. rewrite Hparse.
      destruct (IH (Pos.succ addr) (add_clause kb c))
        as (kb' & cs & Hload & Hclauses & Hall).
      { intros l Hl. apply Hgood. by right. }
      exists kb', (c :: cs). split_and!; [done| |].
      * rewrite Hclauses. simpl. by rewrite <-app_assoc.
      * constructor; [|done]. exists addr. by rewrite Hstrip.
Qed.

(** Loading is not undone when it fails: [ValueError] is raised exactly
    when some line consists of negated tokens only, and the knowledge base
    is then left as the lines before the first such line made it. *)
Theorem load_lines_stops lines :
  ∀ addr (kb kb' : KnowledgeBase (option pystr)),
    load_lines isspace lines addr kb = (kb', LoadValueError) ↔
    ∃ before bad after,
      lines = before ++ bad :: after ∧
      no_conclusion isspace bad ∧
      load_lines isspace before addr kb = (kb', Loaded).
Proof.
  induction lines as [|line lines IH]; intros addr kb kb'.
  - split; [done|]. intros (before & bad & after & Heq & _).
    by destruct before.
  - cbn [load_lines].
    destruct (strip isspace line) as [|ch rest] eqn:Hstrip.
    + rewrite IH. split.
      * intros (before & bad & after & -> & Hbad & Hload).
        exists (line :: before), bad, after. split_and!; [done..|].
        cbn [load_lines]. by rewrite Hstrip.
      * intros (before & bad & after & Heq & Hbad & Hload).
        destruct before as [|l before]; simpl in Heq; simplify_eq.
        -- destruct (from_string_no_conclusion_line 1 _ Hbad) as [Hne _].
           congruence.
        -- exists before, bad, after. split_and!; [done..|].
           cbn [load_lines] in Hload. by rewrite Hstrip in Hload.
    + destruct (from_string isspace addr (ch :: rest)) as [c|] eqn:Hparse.
      * rewrite IH. split.
        -- intros (before & bad & after & -> & Hbad & Hload).
           exists (line :: before), bad, after. split_and!; [done..|].
           cbn [load_lines]. by rewrite Hstrip, Hparse.
        -- intros (before & bad & after & Heq & Hbad & Hload).
           destruct before as [|l before]; simpl in Heq; simplify_eq.
           ++ destruct (from_string_no_conclusion_line addr _ Hbad)
                as [_ Hraise].
              congruence.
           ++ exists before, bad, after. split_and!; [done..|].
              cbn [load_lines] in Hload. by rewrite Hstrip, Hparse in Hload.
      * split.
        -- intros Heq. simplify_eq. exists [], line, lines.
           split_and!; [done| |done].
           destruct (all_negated_or_conclusion
                       (str_split isspace (strip isspace line)))
             as [Hall|Hsome].
           ++ split; [|done]. intros Hnil. apply strip_nil_iff in Hnil.
              congruence.
           ++ destruct (from_string_good_line addr line) as (c & Hc).
              { by rewrite Hstrip. }
              { intros [_ Hall]. destruct Hsome as (t & Ht & Hpos).
                rewrite Forall_forall in Hall.
                by rewrite (Hall t) in Hpos. }
              rewrite Hstrip, Hparse in Hc. done.
        -- intros (before & bad & after & Heq & Hbad & Hload).
           destruct before as [|l before]; simpl in Heq; simplify_eq.
           ++ by simpl in Hload; simplify_eq.
           ++ cbn [load_lines] in Hload.
              by rewrite Hstrip, Hparse in Hload.
Qed.

End LoadingProperties.

(** ** The records of a trace *)

Section TraceRecords.
Context `{Countable Symbol}.
Variable str_of : Symbol → pystr.

Lemma numbered_snoc (trace : list (TraceRecord Symbol)) r :
  numbered trace → record_step r = Z.of_nat (length trace) →
  numbered (trace ++ [r]).
Proof.
  intros Hnum Hr i r' Hi.
  apply lookup_app_Some in Hi as [Hi|[Hge Hi]]; [by apply Hnum|].
  apply list_lookup_singleton_Some in Hi as [Hi ->]. rewrite Hr. lia.
Qed.

Lemma head_snoc (trace : list (TraceRecord Symbol)) r r0 :
  head trace = Some r0 → head (trace ++ [r]) = Some r0.
Proof. by destruct trace. Qed.

(** The traced [for] loop appends numbered records. *)
Lemma for_clauses_trace_numbered (cs : list (Clause Symbol)) count agenda
    trace step count' agenda' trace' step' r0 :
  for_clauses_trace str_of cs count agenda trace step
  = Some (count', agenda', trace', step') →
  numbered trace → step = Z.of_nat (length trace) → head trace = Some r0 →
  numbered trace' ∧ step' = Z.of_nat (length trace') ∧
  head trace' = Some r0.
Proof.
  revert count agenda trace step.
  induction cs as [|c cs IH]; intros count agenda trace step Hrun Hnum Hstep
    Hhead; simpl in Hrun.
  - by simplify_eq.
  - destruct (count !! oid c) as [n|]; [|done].
    destruct (Z.eqb (n - 1) 0).
    + apply IH in Hrun; [done| | |].
      * apply numbered_snoc; [by apply numbered_snoc|].
        rewrite length_app. simpl. lia.
      * rewrite !length_app. simpl. lia.
      * by apply head_snoc, head_snoc.
    + apply IH in Hrun; [done| | |].
      * by apply numbered_snoc.
      * rewrite length_app. simpl. lia.
      * by apply head_snoc.
Qed.

Lemma loop_body_trace_records query (kb kb' : KnowledgeBase Symbol) ts r :
  trace_invariant kb ts →
  loop_body_trace str_of query kb ts = (kb', r) →
  match r with
  | inl ts' => trace_invariant kb ts'
  | inr out => trace_shape str_of kb query out
  end.
Proof.
  intros (Hnum & Hstep & count0 & Hhead) Hbody.
  unfold loop_body_trace in Hbody.
  destruct (agenda (locals ts)) as [|p agenda1].
  { simplify_eq. simpl. split_and!.
    - by apply numbered_snoc.
    - exists count0. by apply head_snoc.
    - rewrite last_snoc, length_app. simpl. do 2 f_equal. lia. }
  destruct (decide (p = query)) as [->|Hne].
  { simplify_eq. simpl. split_and!.
    - apply numbered_snoc; [by apply numbered_snoc|].
      rewrite length_app. simpl. lia.
    - exists count0. by apply head_snoc, head_snoc.
    - rewrite last_snoc, !length_app. simpl. do 2 f_equal. lia. }
  destruct (inferred_get (inferred (locals ts)) p) as [[] inferred1].
  { simplify_eq. split_and!; simpl.
    - by apply numbered_snoc.
    - rewrite length_app. simpl. lia.
    - exists count0. by apply head_snoc. }
  unfold get_clauses_with_premise in Hbody.
  destruct (for_clauses_trace _ _ _ _ _ _)
    as [[[[count2 agenda2] trace3] step3]|] eqn:Hfor; simplify_eq; [|done].
  eapply for_clauses_trace_numbered in Hfor as (Hnum3 & Hstep3 & Hhead3).
  - split_and!; simpl; [done..|]. eauto.
  - apply numbered_snoc; [by apply numbered_snoc|].
    rewrite length_app. simpl. lia.
  - rewrite !length_app. simpl. lia.
  - by apply head_snoc, head_snoc.
Qed.

Lemma while_agenda_trace_records fuel query (kb kb' : KnowledgeBase Symbol)
    ts out :
  trace_invariant kb ts →
  while_agenda_trace str_of fuel query kb ts = Some (kb', out) →
  trace_shape str_of kb query out.
Proof.
  revert ts. induction fuel as [|fuel IH]; intros ts Hinv Hrun; [done|].
  simpl in Hrun.
  destruct (loop_body_trace str_of query kb ts) as [kb1 [ts1|out1]] eqn:Hbody.
  - pose proof (loop_body_trace_records _ _ _ _ _ Hinv Hbody) as Hinv1.
    assert (kb1 = kb) as ->.
    { pose proof (loop_body_trace_plain str_of query kb ts) as Hplain.
      rewrite Hbody in Hplain. simpl in Hplain. symmetry in Hplain.
      by apply loop_body_frame in Hplain. }
    by apply (IH ts1).
  - pose proof (loop_body_trace_records _ _ _ _ _ Hinv Hbody).
    by simplify_eq.
Qed.

(** [forward_chaining_with_trace] terminates on every knowledge base and
    leaves it as it is; in the trace it returns, the ['step'] of the
    [i]-th record is [i], the first record is the initial state with the
    facts as agenda and nothing inferred, and the last record is
    ['Found query: q'] with ['ENTAILED'] when the verdict is [True] and
    ['Agenda empty'] with ['NOT ENTAILED'] when it is [False]. *)
Theorem forward_chaining_with_trace_records (kb : KnowledgeBase Symbol)
    query :
  ∃ out,
    forward_chaining_with_trace str_of kb query = Some (kb, out) ∧
    trace_shape str_of kb query out.
Proof.
  destruct (loop_fuel_enough kb query) as [out Hout].
  specialize (Hout _ (reflexivity _)).
  rewrite <-(forward_chaining_with_trace_fuel_plain str_of) in Hout.
  unfold forward_chaining_with_trace.
  destruct (forward_chaining_with_trace_fuel str_of (enough_fuel kb) kb query)
    as [[kb' tout]|] eqn:Hrun; [|done].
  simpl in Hout. simplify_eq. exists tout. split; [done|].
  unfold forward_chaining_with_trace_fuel, init_traced_locals, get_facts
    in Hrun.
  eapply while_agenda_trace_records; [|exact Hrun].
  split_and!; simpl.
  - intros i r Hi. destruct i as [|i]; simpl in Hi; [by simplify_eq|done].
  - done.
  - unfold inferred_true. rewrite map_filter_empty. eauto.
Qed.

End TraceRecords.

(** ** Completeness, also with a clause object inserted several times *)

Section Completeness.
Context `{Countable Symbol}.

Lemma entries_cons k (c : Clause Symbol) l :
  entries k (c :: l) = (if decide (oid c = k) then 1 else 0) + entries k l.
Proof. unfold entries. rewrite filter_cons. by destruct (decide _). Qed.

Lemma entries_pos k (l : list (Clause Symbol)) :
  0 < entries k l → ∃ c, c ∈ l ∧ oid c = k.
Proof.
  unfold entries. intros Hpos.
  destruct (filter (λ c, oid c = k) l) as [|c l'] eqn:Hf; [simpl in Hpos; lia|].
  assert (c ∈ filter (λ c, oid c = k) l) as Hc by (rewrite Hf; left).
  apply list_elem_of_filter in Hc as [? ?]. eauto.
Qed.

(** The [for] loop on any list: every counter goes down by the number of
    entries of its object, and a counter that goes from positive to not
    positive makes the conclusion of an entry of the object enter the
    agenda. *)
Lemma for_clauses_counts (l : list (Clause Symbol)) count agenda :
  (∀ c, c ∈ l → is_Some (count !! oid c)) →
  ∃ count' pushed,
    for_clauses l count agenda = Some (count', agenda ++ pushed) ∧
    (∀ k n, count !! k = Some n →
       count' !! k = Some (n - Z.of_nat (entries k l))%Z) ∧
    (∀ k n, count !! k = Some n → (1 ≤ n ≤ Z.of_nat (entries k l))%Z →
       ∃ c, c ∈ l ∧ oid c = k ∧ conclusion_literal c ∈ pushed).
Proof.
  revert count agenda. induction l as [|c l IH]; intros count agenda Hcov.
  - exists count, []. rewrite app_nil_r. split_and!; [done| |].
    + intros k n Hk. rewrite Hk. f_equal. unfold entries. simpl. lia.
    + intros k n _ Hn. unfold entries in Hn. simpl in Hn. lia.
  - destruct (Hcov c) as [n0 Hn0]; [left|]. simpl. rewrite Hn0.
    set (count1 := <[oid c := (n0 - 1)%Z]> count).
    destruct (IH count1
                (if Z.eqb (n0 - 1) 0 then agenda ++ [conclusion_literal c]
                 else agenda))
      as (count' & pushed & Hrun & Hcounts & Hpush).
    { intros c' Hc'. unfold count1.
      destruct (decide (oid c = oid c')) as [<-|Hne].
      - rewrite lookup_insert_eq. eauto.
      - rewrite lookup_insert_ne by done. apply Hcov. by right. }
    exists count',
      (if Z.eqb (n0 - 1) 0 then conclusion_literal c :: pushed else pushed).
    split_and!.
    + rewrite Hrun. destruct (Z.eqb (n0 - 1) 0); [|done].
      by rewrite <-app_assoc.
    + intros k n Hk. rewrite entries_cons.
      destruct (decide (oid c = k)) as [<-|Hne].
      * rewrite (Hcounts (oid c) (n0 - 1)%Z) by apply lookup_insert_eq.
        assert (n = n0) as -> by congruence. f_equal; lia.
      * rewrite (Hcounts k n) by (unfold count1; by rewrite lookup_insert_ne).
        f_equal; lia.
    + intros k n Hk. rewrite entries_cons.
      destruct (decide (oid c = k)) as [<-|Hne]; intros Hn.
      * assert (n = n0) as -> by congruence.
        destruct (Z.eqb_spec (n0 - 1) 0) as [Hone|Hmore].
        -- exists c. split_and!; [left|done|left].
        -- destruct (Hpush (oid c) (n0 - 1)%Z) as (c' & Hc' & Hoid & Hin).
           { apply lookup_insert_eq. }
           { lia. }
           exists c'. split_and!; [by right|done..].
      * destruct (Hpush k n) as (c' & Hc' & Hoid & Hin).
        { unfold count1. by rewrite lookup_insert_ne. }
        { lia. }
        exists c'. split_and!; [by right|done|].
        destruct (Z.eqb (n0 - 1) 0); [by right|done].
Qed.

Lemma entries_replicate k n (c : Clause Symbol) :
  entries k (replicate n c) = if decide (oid c = k) then n else 0.
Proof.
  induction n as [|n IH]; simpl.
  - by destruct (decide _).
  - rewrite entries_cons, IH. by destruct (decide _).
Qed.

Lemma entries_app k (l1 l2 : list (Clause Symbol)) :
  entries k (l1 ++ l2) = entries k l1 + entries k l2.
Proof. unfold entries. by rewrite filter_app, length_app. Qed.

(** Inferring [p] adds its occurrences to the inferred premises. *)
Lemma satisfied_infer (inferred inferred' : gmap Symbol bool) p
    (c : Clause Symbol) :
  inferred !! p ≠ Some true →
  (∀ x, inferred' !! x = Some true ↔ x = p ∨ inferred !! x = Some true) →
  satisfied inferred' c = satisfied inferred c + occurrences p c.
Proof.
  intros Hp Hnew. unfold satisfied, occurrences.
  induction (premise_literals c) as [|x l IH]; [done|].
  rewrite !filter_cons.
  destruct (decide (x = p)) as [->|Hne].
  - rewrite decide_True, decide_False by (try done; rewrite Hnew; tauto).
    simpl. lia.
  - destruct (decide (inferred !! x = Some true)) as [Hx|Hx].
    + rewrite decide_True by (rewrite Hnew; tauto). simpl. lia.
    + rewrite decide_False by (rewrite Hnew; tauto). done.
Qed.

(** The decrements that inferring [p] adds are the entries of the bucket
    of [p]. *)
Lemma decrements_infer (inferred inferred' : gmap Symbol bool) p
    (cs : list (Clause Symbol)) k :
  inferred !! p ≠ Some true →
  (∀ x, inferred' !! x = Some true ↔ x = p ∨ inferred !! x = Some true) →
  decrements inferred' cs k
  = decrements inferred cs k + entries k (bucket_of cs p).
Proof.
  intros Hp Hnew. unfold decrements, bucket_of.
  induction cs as [|c cs IH]; [done|].
  rewrite !fmap_cons, bind_cons, entries_app, entries_replicate. simpl.
  rewrite IH. destruct (decide (oid c = k)); [|lia].
  rewrite (satisfied_infer inferred inferred' p c) by done. lia.
Qed.

(** A clause of the list counts among the decrements of its object. *)
Lemma decrements_ge (inferred : gmap Symbol bool)
    (cs : list (Clause Symbol)) c :
  c ∈ cs → satisfied inferred c ≤ decrements inferred cs (oid c).
Proof.
  unfold decrements. induction cs as [|c' cs IH]; [by intros ?%elem_of_nil|].
  rewrite fmap_cons. simpl. intros [->|Hc]%elem_of_cons.
  - rewrite decide_True by done. lia.
  - apply IH in Hc. lia.
Qed.

Lemma satisfied_all (inferred : gmap Symbol bool) (c : Clause Symbol) :
  (∀ x, x ∈ premise_literals c → inferred !! x = Some true) →
  satisfied inferred c = length (premise_literals c).
Proof.
  unfold satisfied. induction (premise_literals c) as [|x l IH]; [done|].
  intros Hall. rewrite filter_cons, decide_True by (apply Hall; left).
  simpl. rewrite IH; [done|]. intros y Hy. apply Hall. by right.
Qed.

Lemma decrements_empty (cs : list (Clause Symbol)) k :
  decrements ∅ cs k = 0.
Proof.
  unfold decrements. induction cs as [|c cs IH]; [done|].
  rewrite fmap_cons. simpl. rewrite IH.
  destruct (decide _); [|done]. unfold satisfied.
  induction (premise_literals c) as [|x l IHl]; [done|].
  rewrite filter_cons, decide_False by (by rewrite lookup_empty). lia.
Qed.

Section Run.
Variable cs : list (Clause Symbol).
Variable query : Symbol.
Variable kb : KnowledgeBase Symbol.
Hypothesis cs_objects : same_object_same_fields cs.
Hypothesis kb_buckets :
  ∀ p, (get_clauses_with_premise kb p).1 = bucket_of cs p.

Lemma complete_invariant_fire st c :
  complete_invariant cs query st → c ∈ cs →
  (∀ x, x ∈ premise_literals c → inferred st !! x = Some true) →
  conclusion_literal c ∈ agenda st
  ∨ inferred st !! conclusion_literal c = Some true.
Proof.
  intros (Hcount & Hfire & _ & _) Hc Hprem.
  eapply Hfire; [done|by apply Hcount|].
  pose proof (decrements_ge (inferred st) cs c Hc).
  rewrite (satisfied_all _ _ Hprem) in *. lia.
Qed.

Lemma loop_body_complete st kb' r :
  complete_invariant cs query st →
  loop_body query kb st = (kb', r) →
  match r with
  | inl st' => complete_invariant cs query st'
  | inr out => complete_outcome cs query out
  end.
Proof.
  intros Hinv Hstep.
  pose proof Hinv as (Hcount & Hfire & Hpath & Hquery).
  unfold loop_body in Hstep.
  destruct (agenda st) as [|p agenda1] eqn:Hagenda.
  { simplify_eq. simpl.
    assert (∀ x, derivable cs x → inferred st !! x = Some true) as Hclosed.
    { intros x Hx. induction Hx as [c Hc _ IH].
      destruct (complete_invariant_fire st c Hinv Hc IH) as [Hin|Hin];
        [|done].
      rewrite Hagenda in Hin. by apply elem_of_nil in Hin. }
    split.
    - intros Hq. by apply Hclosed in Hq.
    - intros _ x Hx. by apply Hpath, Hclosed. }
  destruct (decide (p = query)) as [->|Hne].
  { by simplify_eq. }
  destruct (inferred_get (inferred st) p) as [[] inferred1] eqn:Hget.
  { apply inferred_get_true in Hget as [-> Hp]. simplify_eq.
    split_and!; simpl; [done| |done|done].
    intros c n Hc Hn Hle.
    destruct (Hfire c n Hc Hn Hle) as [[->|Hin]%elem_of_cons|Hin]; auto. }
  apply inferred_get_false in Hget as [Hp Hnew].
  pose proof (kb_buckets p) as Hbucket.
  unfold get_clauses_with_premise in *. simpl in Hbucket.
  rewrite Hbucket in Hstep.
  destruct (for_clauses_counts (bucket_of cs p) (count st) agenda1)
    as (count2 & pushed & Hrun & Hcounts & Hpush).
  { intros c [Hc _]%elem_of_bucket_of. rewrite Hcount by done. eauto. }
  rewrite Hrun in Hstep. simplify_eq. split_and!; simpl.
  - intros c Hc. rewrite (Hcounts _ _ (Hcount c Hc)). f_equal.
    rewrite (decrements_infer (inferred st) (<[p := true]> inferred1) p)
      by done. lia.
  - intros c n2 Hc Hn2 Hle.
    rewrite (Hcounts _ _ (Hcount c Hc)) in Hn2.
    set (n := (Z.of_nat (length (premise_literals c))
               - Z.of_nat (decrements (inferred st) cs (oid c)))%Z) in *.
    destruct (decide (n ≤ 0)%Z) as [Hold|Hold].
    + destruct (Hfire c n Hc (Hcount c Hc) Hold)
        as [[->|Hin]%elem_of_cons|Hin].
      * right. apply Hnew. by left.
      * left. apply elem_of_app. by left.
      * right. apply Hnew. by right.
    + destruct (Hpush (oid c) n (Hcount c Hc)) as (c' & Hc' & Hoid & Hin).
      { simplify_eq. lia. }
      apply elem_of_bucket_of in Hc' as [Hc' _].
      rewrite (cs_objects c' c Hc' Hc Hoid) in Hin.
      left. apply elem_of_app. by right.
  - intros x Hx. apply Hnew in Hx as [->|Hx]; apply elem_of_app.
    + right. left.
    + left. by apply Hpath.
  - intros Hq. apply Hnew in Hq as [->|Hq]; done.
Qed.

Lemma while_agenda_complete fuel st kb' out :
  complete_invariant cs query st →
  while_agenda fuel query kb st = Some (kb', out) →
  complete_outcome cs query out.
Proof.
  revert st. induction fuel as [|fuel IH]; intros st Hinv Hrun; [done|].
  rewrite while_agenda_S in Hrun.
  destruct (loop_body query kb st) as [kb1 [st1|out1]] eqn:Hstep.
  - pose proof (loop_body_complete _ _ _ Hinv Hstep) as Hinv1.
    apply loop_body_frame in Hstep as ->. by apply (IH st1).
  - pose proof (loop_body_complete _ _ _ Hinv Hstep). by simplify_eq.
Qed.

End Run.

(** The first counter of an object is the number of premises of its
    references. *)
Lemma init_count_object (cs : list (Clause Symbol)) c :
  same_object_same_fields cs → c ∈ cs →
  init_count cs !! oid c = Some (Z.of_nat (length (premise_literals c))).
Proof.
  induction cs as [|c' cs IH] using rev_ind; [by intros _ ?%elem_of_nil|].
  intros Hobj Hc. rewrite init_count_snoc.
  destruct (decide (oid c' = oid c)) as [Heq|Hne].
  - rewrite Heq, lookup_insert_eq.
    rewrite (Hobj c' c); [done| |done..].
    apply elem_of_app. right. left.
  - rewrite lookup_insert_ne by done. apply IH.
    + intros c1 c2 Hc1 Hc2. apply Hobj; apply elem_of_app; by left.
    + apply elem_of_app in Hc as [Hc|Hc]; [done|].
      apply list_elem_of_singleton in Hc. by subst.
Qed.

(** [forward_chaining] misses no derivable symbol, however often the
    clause objects were inserted: a derivable query is answered [True],
    and with the verdict [False] every derivable symbol is in the path.
    (What an object inserted twice breaks is the converse.) *)
Theorem forward_chaining_complete {order : SetOrder Symbol}
    (cs : list (Clause Symbol)) query :
  same_object_same_fields cs →
  ∃ is_entailed path,
    forward_chaining (build cs) query
    = Some (build cs, Returned is_entailed path) ∧
    (derivable cs query → is_entailed = true) ∧
    (is_entailed = false → ∀ x, derivable cs x → x ∈ path).
Proof.
  intros Hobj.
  destruct (loop_fuel_enough (build cs) query) as [out Hout].
  specialize (Hout _ (reflexivity _)).
  assert (complete_outcome cs query out) as Hpost.
  { unfold forward_chaining_fuel, init_locals, get_facts in Hout.
    eapply (while_agenda_complete cs query (build cs) Hobj (bucket_build cs));
      [|exact Hout].
    rewrite clauses_build. split_and!; simpl.
    - intros c Hc. rewrite init_count_object, decrements_empty by done.
      f_equal. lia.
    - intros c n Hc Hn Hle. left. rewrite init_count_object in Hn by done.
      simplify_eq. apply elem_of_facts_build. exists c.
      split_and!; [done| |done]. unfold is_fact. apply Nat.eqb_eq. lia.
    - intros x Hx. by rewrite lookup_empty in Hx.
    - by rewrite lookup_empty. }
  destruct out as [is_entailed path|]; [|done].
  exists is_entailed, path. by destruct Hpost.
Qed.

End Completeness.

(** ** The properties at the knowledge bases of the tests *)

Section MoreInstances.
Local Open Scope string_scope.

(** No clause of the tests concludes ['e']: the answer is [False]. *)
Lemma forward_chaining_unknown_query_witness :
  (∀ c, c ∈ test_clauses 1 2 3 4 → conclusion_literal c ≠ "e") ∧
  ∃ path,
    forward_chaining (build (order := last_order) (test_clauses 1 2 3 4)) "e"
    = Some (build (order := last_order) (test_clauses 1 2 3 4),
            Returned false path).
Proof.
  assert (∀ c, c ∈ test_clauses 1 2 3 4 → conclusion_literal c ≠ "e")
    as Hnone.
  { intros c Hc. unfold test_clauses in Hc.
    repeat (apply elem_of_cons in Hc as [->|Hc]); try done.
    by apply elem_of_nil in Hc. }
  split; [exact Hnone|].
  apply (forward_chaining_unknown_query (order := last_order)
           (test_clauses 1 2 3 4) "e" Hnone).
Defined.

(** Two rules that conclude each other's premise, and no fact. *)
Lemma forward_chaining_without_facts_witness :
  (∀ c, c ∈ [new_clause 1 ["a"] "b"; new_clause 2 ["b"] "a"] →
        is_fact c = false) ∧
  forward_chaining
    (build (order := last_order)
       [new_clause 1 ["a"] "b"; new_clause 2 ["b"] "a"]) "a"
  = Some (build (order := last_order)
            [new_clause 1 ["a"] "b"; new_clause 2 ["b"] "a"],
          Returned false []).
Proof.
  assert (∀ c, c ∈ [new_clause 1 ["a"] "b"; new_clause 2 ["b"] "a"] →
               is_fact c = false) as Hrules.
  { intros c Hc.
    repeat (apply elem_of_cons in Hc as [->|Hc]); try done.
    by apply elem_of_nil in Hc. }
  split; [exact Hrules|].
  apply (forward_chaining_without_facts (order := last_order) _ "a" Hrules).
Defined.

(** The path for the query ['e'] on the clauses of the tests. *)
Lemma forward_chaining_path_derivation_witness :
  NoDup (oid <$> test_clauses 1 2 3 4) ∧
  ∃ is_entailed path,
    forward_chaining (build (order := last_order) (test_clauses 1 2 3 4)) "e"
    = Some (build (order := last_order) (test_clauses 1 2 3 4),
            Returned is_entailed path) ∧
    derivation (test_clauses 1 2 3 4) path.
Proof.
  assert (NoDup (oid <$> test_clauses 1 2 3 4)) as Hnodup.
  { apply (bool_decide_unpack _). vm_compute. reflexivity. }
  split; [exact Hnodup|].
  apply (forward_chaining_path_derivation (order := last_order)
           (test_clauses 1 2 3 4) "e" Hnodup).
Defined.

(** The clauses of the tests, added in the order of [setUp] and in the
    opposite order. *)
Lemma forward_chaining_order_independent_witness :
  NoDup (oid <$> test_clauses 1 2 3 4) ∧
  test_clauses 1 2 3 4 ≡ₚ reverse (test_clauses 1 2 3 4) ∧
  ∃ is_entailed path1 path2,
    forward_chaining (build (order := last_order) (test_clauses 1 2 3 4)) "e"
    = Some (build (order := last_order) (test_clauses 1 2 3 4),
            Returned is_entailed path1) ∧
    forward_chaining
      (build (order := last_order) (reverse (test_clauses 1 2 3 4))) "e"
    = Some (build (order := last_order) (reverse (test_clauses 1 2 3 4)),
            Returned is_entailed path2) ∧
    (is_entailed = false → path1 ≡ₚ path2).
Proof.
  assert (NoDup (oid <$> test_clauses 1 2 3 4)) as Hnodup.
  { apply (bool_decide_unpack _). vm_compute. reflexivity. }
  assert (test_clauses 1 2 3 4 ≡ₚ reverse (test_clauses 1 2 3 4)) as Hperm.
  { symmetry. apply reverse_Permutation. }
  split_and!; [exact Hnodup|exact Hperm|].
  apply (forward_chaining_order_independent last_order last_order
           (test_clauses 1 2 3 4) (reverse (test_clauses 1 2 3 4)) "e"
           Hnodup Hperm).
Defined.


(** One clause object inserted twice: the two references agree on the
    attributes, nothing derivable is missed. *)
Lemma forward_chaining_complete_witness :
  same_object_same_fields clause_twice ∧
  ∃ is_entailed path,
    forward_chaining (build (order := last_order) clause_twice) "z"
    = Some (build (order := last_order) clause_twice,
            Returned is_entailed path) ∧
    (derivable clause_twice "z" → is_entailed = true) ∧
    (is_entailed = false → ∀ x, derivable clause_twice x → x ∈ path).
Proof.
  assert (same_object_same_fields clause_twice) as Hobj.
  { intros c1 c2 Hc1 Hc2. unfold clause_twice in Hc1, Hc2.
    repeat (apply elem_of_cons in Hc1 as [->|Hc1]);
      try (by apply elem_of_nil in Hc1);
      repeat (apply elem_of_cons in Hc2 as [->|Hc2]);
      try (by apply elem_of_nil in Hc2); done. }
  split; [exact Hobj|].
  apply (forward_chaining_complete (order := last_order) clause_twice "z"
           Hobj).
Defined.

End MoreInstances.

Section MoreParserInstances.

(** The line [-a -b c] written from its premises and conclusion. *)
Lemma from_string_clause_line_witness :
  py_isspace 32 = true ∧ py_isspace 45 = false ∧
  (∀ p ch, p ∈ [lit "a"; lit "b"] → ch ∈ p → py_isspace ch = false) ∧
  lit "c" ≠ [] ∧
  (∀ ch, ch ∈ lit "c" → py_isspace ch = false) ∧
  startswith_minus (lit "c") = false ∧
  from_string py_isspace 7 (clause_line [lit "a"; lit "b"] (lit "c"))
  = Parsed (new_clause 7 (Some <$> [lit "a"; lit "b"]) (Some (lit "c"))).
Proof.
  assert (∀ p ch, p ∈ [lit "a"; lit "b"] → ch ∈ p → py_isspace ch = false)
    as Hprem.
  { assert (Forall (Forall (λ ch, py_isspace ch = false))
                   [lit "a"; lit "b"]) as Hall.
    { apply (bool_decide_unpack _). vm_compute. reflexivity. }
    intros p ch Hp Hch. rewrite Forall_forall in Hall.
    specialize (Hall p Hp). rewrite Forall_forall in Hall. by apply Hall. }
  assert (lit "c" ≠ []) as Hne by done.
  assert (∀ ch, ch ∈ lit "c" → py_isspace ch = false) as Hconcl.
  { intros ch Hch. apply list_elem_of_singleton in Hch as ->. reflexivity. }
  split_and!; [reflexivity|reflexivity|exact Hprem|exact Hne|exact Hconcl
              |reflexivity|].
  apply (from_string_clause_line py_isspace 7 [lit "a"; lit "b"] (lit "c")
           (reflexivity _) (reflexivity _) Hprem Hne Hconcl (reflexivity _)).
Defined.

(** The fact [a], printed and read back. *)
Lemma from_string_clause_str_fact_witness :
  premise_literals (new_clause 3 [] (Some (lit "a"))) = [] ∧
  conclusion_literal (new_clause 3 [] (Some (lit "a"))) = Some (lit "a") ∧
  lit "a" ≠ [] ∧
  (∀ ch, ch ∈ lit "a" → py_isspace ch = false) ∧
  startswith_minus (lit "a") = false ∧
  from_string py_isspace 7
    (clause_str str_of_value (new_clause 3 [] (Some (lit "a"))))
  = Parsed (new_clause 7 [] (Some (lit "a"))).
Proof.
  assert (lit "a" ≠ []) as Hne by done.
  assert (∀ ch, ch ∈ lit "a" → py_isspace ch = false) as Hconcl.
  { intros ch Hch. apply list_elem_of_singleton in Hch as ->. reflexivity. }
  split_and!; [reflexivity|reflexivity|exact Hne|exact Hconcl|reflexivity|].
  apply (from_string_clause_str_fact py_isspace 7
           (new_clause 3 [] (Some (lit "a"))) (lit "a")
           (reflexivity _) (reflexivity _) Hne Hconcl (reflexivity _)).
Defined.

(** The rule [a ∧ b → c], printed and read back. *)
Lemma from_string_clause_str_rule_witness :
  py_isspace 40 = false ∧
  premise_literals
    (new_clause 3 [Some (lit "a"); Some (lit "b")] (Some (lit "c"))) ≠ [] ∧
  ∃ t, from_string py_isspace 7
         (clause_str str_of_value
            (new_clause 3 [Some (lit "a"); Some (lit "b")] (Some (lit "c"))))
       = Parsed (new_clause 7 [] (Some (40%N :: t))).
Proof.
  assert (premise_literals
            (new_clause 3 [Some (lit "a"); Some (lit "b")] (Some (lit "c")))
          ≠ []) as Hprem by done.
  split_and!; [reflexivity|exact Hprem|].
  apply (from_string_clause_str_rule py_isspace 7
           (new_clause 3 [Some (lit "a"); Some (lit "b")] (Some (lit "c")))
           (reflexivity _) Hprem).
Defined.

(** A file of a fact, an empty line and a rule. *)
Lemma load_lines_loaded_witness :
  (∀ line, line ∈ [lit "a"; []; lit "-a b"] →
           ¬ no_conclusion py_isspace line) ∧
  ∃ kb' cs,
    load_lines (order := last_order) py_isspace [lit "a"; []; lit "-a b"] 1
      (empty_kb (Symbol := option pystr))
    = (kb', Loaded) ∧
    clauses kb' = clauses (empty_kb (Symbol := option pystr)) ++ cs ∧
    Forall2 (λ line c,
               ∃ a, from_string py_isspace a (strip py_isspace line)
                    = Parsed c)
            (filter (λ line, strip py_isspace line ≠ [])
                    [lit "a"; []; lit "-a b"]) cs.
Proof.
  assert (∀ line, line ∈ [lit "a"; []; lit "-a b"] →
                  ¬ no_conclusion py_isspace line) as Hlines.
  { intros line Hline [Hsome Hall].
    repeat (apply elem_of_cons in Hline as [->|Hline]).
    - vm_compute in Hall. by inversion Hall.
    - by vm_compute in Hsome.
    - vm_compute in Hall. inversion Hall as [|? ? _ Hrest]. by inversion Hrest.
    - by apply elem_of_nil in Hline. }
  split; [exact Hlines|].
  apply (load_lines_loaded py_isspace (order := last_order)
           [lit "a"; []; lit "-a b"] 1 (empty_kb (Symbol := option pystr)) Hlines).
Defined.

End MoreParserInstances.
